(** * PageRank: a shallow embedding of [pagerank.py]

    The program of the repository: [crawl], [transition_model],
    [sample_pagerank], [iterate_pagerank] and [main].

    Modelling choices.
    - Numbers.  The program computes with Python floats.  The general
      statements below are the ones of exact arithmetic: a number is a
      canonical rational [Qc] (Leibniz equality, computable), and integers
      ([len], the visit counters) are embedded in [Qc].  A statement in
      [Qc] is read as one about the program only where rounding cannot
      change it: structure, keys, formulas, identities and non-strict
      bounds, and what holds whenever a function returns.  What depends on
      a comparison that rounding can turn (which page a draw selects,
      whether a turn selects a page at all) is settled on the sampler as it
      computes, in binary64: the module [Binary64] holds the same
      functions on the kernel's primitive floats.
    - Dictionaries.  A Python [dict] iterates in insertion order and an
      assignment to an existing key keeps its position: an association
      list with [dict_set] replacing in place or appending.
    - Sets.  A Python [set] is a duplicate-free list; the list order is
      the order in which the set is iterated.  [set.add] appends a new
      element at the end.  Python iterates a set of strings in the order
      of their hashes, which changes from process to process: where the
      order of a set can change a result (a page among its own sources in
      [iterate_pagerank]), [iterate_pagerank_ordered] takes the order in
      which the sets of the reverse index are read as a parameter.
    - Exceptions.  A failing subscript raises [KeyError],
      [random.choice] on an empty sequence raises [IndexError], and
      opening or reading a file raises [OSError] (a directory, a file
      without permission) or [UnicodeDecodeError]: fallible code lives in
      the [result] monad.
    - Randomness.  [random.choice] and [random.random] are oracles handed
      in by the caller: an index and a stream of draws.
    - The [while] loop of [iterate_pagerank] has no bound in the source;
      the embedding runs it on fuel and answers [None] when the fuel is
      spent while the loop condition still holds.
    - In-place mutation.  [iterate_pagerank] updates the sets stored in
      the caller's dictionary; the embedding returns the caller's graph as
      it stands after the call next to the returned table. *)

From Stdlib Require Import List String Bool Arith ZArith Lia.
From Stdlib Require Import QArith Qcanon Field.
From Stdlib Require Import Permutation.
From Stdlib Require Qcabs.
From Stdlib Require Floats.
Import ListNotations.

Local Open Scope string_scope.
Local Open Scope list_scope.
Local Open Scope Qc_scope.

(** ** Exceptions and the error monad *)

Inductive exn : Type :=
| KeyError
| IndexError
| OSError
| UnicodeDecodeError.

Inductive result (A : Type) : Type :=
| Ok (a : A)
| Raise (e : exn).

Arguments Ok {A} a.
Arguments Raise {A} e.

Definition bind {A B : Type} (m : result A) (k : A -> result B) : result B :=
  match m with
  | Ok a => k a
  | Raise e => Raise e
  end.

Notation "x <- m ;; k" := (bind m (fun x => k))
  (at level 61, m at next level, right associativity).

(** [for x in xs: body], threading the loop state and stopping at the first
    exception. *)
Fixpoint for_each {A S : Type} (xs : list A) (body : S -> A -> result S)
         (s : S) : result S :=
  match xs with
  | [] => Ok s
  | x :: xs' => s' <- body s x ;; for_each xs' body s'
  end.

(** ** Numbers *)

Definition num (n : nat) : Qc := Q2Qc (inject_Z (Z.of_nat n)).

(** [x > y] as the program tests it. *)
Definition Qcgtb (x y : Qc) : bool :=
  match x ?= y with
  | Gt => true
  | _ => false
  end.

(** ** Dictionaries and sets *)

Section Dict.
Context {V : Type}.

Definition dict : Type := list (string * V).

Fixpoint dict_get (k : string) (d : dict) : option V :=
  match d with
  | [] => None
  | (k', v) :: d' => if String.eqb k k' then Some v else dict_get k d'
  end.

(** [d[k] = v] *)
Fixpoint dict_set (k : string) (v : V) (d : dict) : dict :=
  match d with
  | [] => [(k, v)]
  | (k', v') :: d' =>
      if String.eqb k k' then (k', v) :: d' else (k', v') :: dict_set k v d'
  end.

Definition dict_keys (d : dict) : list string := map fst d.

Definition dict_values (d : dict) : list V := map snd d.

(** [k in d] *)
Definition dict_mem (k : string) (d : dict) : bool :=
  match dict_get k d with
  | Some _ => true
  | None => false
  end.

(** [d[k]] *)
Definition subscript (k : string) (d : dict) : result V :=
  match dict_get k d with
  | Some v => Ok v
  | None => Raise KeyError
  end.

(** [d.get(k, default)] *)
Definition dict_get_default (k : string) (default : V) (d : dict) : V :=
  match dict_get k d with
  | Some v => v
  | None => default
  end.
End Dict.

Arguments dict V : clear implicits.

Definition pyset : Type := list string.

Definition set_mem (x : string) (s : pyset) : bool :=
  existsb (String.eqb x) s.

(** [s.add(x)] *)
Definition set_add (x : string) (s : pyset) : pyset :=
  if set_mem x s then s else s ++ [x].

(** [s.update(t)] *)
Definition set_update (s t : pyset) : pyset :=
  fold_left (fun acc x => set_add x acc) t s.

(** A graph (the program's [corpus]): page -> set of pages it links to. *)
Definition Graph : Type := dict pyset.

Definition RankTable : Type := dict Qc.

(** ** [transition_model] *)

Definition transition_model (corpus : Graph) (page : string)
           (damping_factor : Qc) : result (dict Qc) :=
  links <- subscript page corpus ;;
  if negb (List.length links =? 0)%nat then
    let model :=
      fold_left
        (fun model key =>
           dict_set key ((1 - damping_factor) / num (List.length corpus)) model)
        (dict_keys corpus) [] in
    for_each links
      (fun model link =>
         p <- subscript link model ;;
         Ok (dict_set link (p + damping_factor / num (List.length links)) model))
      model
  else
    Ok (fold_left
          (fun model key => dict_set key (1 / num (List.length corpus)) model)
          (dict_keys corpus) []).

(** ** [sample_pagerank] *)

(** The local variables of the random walk.  [page] and [nextpage] hold a
    page or Python's [None]. *)
Record walk : Type := mkWalk {
  page : option string;
  nextpage : option string;
  pageRanks : dict Qc
}.

(** The cumulative loop [for key in model: total += model[key]; if total >
    choice: nextpage = key; break].  The last argument is the value
    [nextpage] holds before the loop; it is returned when the loop runs to
    its end without a [break]. *)
Fixpoint draw (entries : dict Qc) (choice total : Qc)
         (nextpage : option string) : option string :=
  match entries with
  | [] => nextpage
  | (key, p) :: rest =>
      let total := total + p in
      if Qcgtb total choice then Some key else draw rest choice total nextpage
  end.

(** One turn of [for i in range(n)].  With [page = None] the subscript
    [corpus[page]] inside [transition_model] raises [KeyError]. *)
Definition sample_step (corpus : Graph) (damping_factor : Qc)
           (w : walk) (choice : Qc) : result walk :=
  match page w with
  | None => Raise KeyError
  | Some p =>
      model <- transition_model corpus p damping_factor ;;
      let nextpage' := draw model choice 0 (nextpage w) in
      Ok {| page := nextpage';
            nextpage := nextpage';
            pageRanks :=
              dict_set p (dict_get_default p 0 (pageRanks w) + 1)
                       (pageRanks w) |}
  end.

(** [random.choice(seq)] with the oracle's index [r]. *)
Definition random_choice (seq : list string) (r : nat) : result string :=
  match seq with
  | [] => Raise IndexError
  | x :: _ => Ok (nth (r mod List.length seq) seq x)
  end.

Definition Z2Qc (z : Z) : Qc := Q2Qc (inject_Z z).

(** The closing loop [for page in pageRanks: pageRanks[page] =
    pageRanks[page] / n]. *)
Definition normalize (n : Z) (pageRanks : dict Qc) : result (dict Qc) :=
  for_each (dict_keys pageRanks)
    (fun ranks page =>
       c <- subscript page ranks ;;
       Ok (dict_set page (c / Z2Qc n) ranks))
    pageRanks.

(** The walk after [turns] turns of the loop.  [start] is the index
    [random.choice] draws, [draws i] the value of [random.random()] in
    turn [i]. *)
Definition random_walk (corpus : Graph) (damping_factor : Qc) (turns : nat)
           (start : nat) (draws : nat -> Qc) : result walk :=
  page0 <- random_choice (dict_keys corpus) start ;;
  for_each (seq 0 turns)
    (fun w i => sample_step corpus damping_factor w (draws i))
    {| page := Some page0; nextpage := None; pageRanks := [] |}.

(** [range(n)] has [max(n, 0)] turns. *)
Definition sample_pagerank (corpus : Graph) (damping_factor : Qc) (n : Z)
           (start : nat) (draws : nat -> Qc) : result RankTable :=
  w <- random_walk corpus damping_factor (Z.to_nat n) start draws ;;
  normalize n (pageRanks w).

(** ** [transition_model] and [sample_pagerank] in binary64

    The same two functions as the program computes them: a Python float is
    an IEEE 754 binary64 number, the kernel's [PrimFloat.float], and [+],
    [-], [/] and [>] are the correctly rounded operations.  An integer
    that meets a float ([len(corpus)], the [1] of [1 - damping_factor], the
    [0] of [total = 0]) is converted first, exactly; [int / int] is the
    correctly rounded quotient, which for integers below [2^53] is the
    quotient of the converted integers.  The visit counters stay
    integers until the closing loop divides them. *)

Module Binary64.
Import PrimFloat.

(** [float(n)] for a length or a counter. *)
Definition of_nat (n : nat) : float := of_uint63 (Uint63.of_Z (Z.of_nat n)).

(** [float(n)] for the sample count. *)
Definition of_Z (n : Z) : float :=
  if (n <? 0)%Z then (- of_uint63 (Uint63.of_Z (- n)))%float
  else of_uint63 (Uint63.of_Z n).

Definition transition_model (corpus : Graph) (page : string)
           (damping_factor : float) : result (dict float) :=
  links <- subscript page corpus ;;
  if negb (List.length links =? 0)%nat then
    let model :=
      fold_left
        (fun model key =>
           dict_set key
                    ((1 - damping_factor) / of_nat (List.length corpus))%float
                    model)
        (dict_keys corpus) [] in
    for_each links
      (fun model link =>
         p <- subscript link model ;;
         Ok (dict_set link
                      (p + damping_factor / of_nat (List.length links))%float
                      model))
      model
  else
    Ok (fold_left
          (fun model key =>
             dict_set key (1 / of_nat (List.length corpus))%float model)
          (dict_keys corpus) []).

Record walk : Type := mkWalk {
  page : option string;
  nextpage : option string;
  pageRanks : dict nat
}.

(** [total > choice] is [choice < total]. *)
Fixpoint draw (entries : dict float) (choice total : float)
         (nextpage : option string) : option string :=
  match entries with
  | [] => nextpage
  | (key, p) :: rest =>
      let total := (total + p)%float in
      if ltb choice total then Some key else draw rest choice total nextpage
  end.

Definition sample_step (corpus : Graph) (damping_factor : float)
           (w : walk) (choice : float) : result walk :=
  match page w with
  | None => Raise KeyError
  | Some p =>
      model <- transition_model corpus p damping_factor ;;
      let nextpage' := draw model choice 0%float (nextpage w) in
      Ok {| page := nextpage';
            nextpage := nextpage';
            pageRanks :=
              dict_set p (dict_get_default p 0%nat (pageRanks w) + 1)%nat
                       (pageRanks w) |}
  end.

(** The closing loop.  It replaces every counter by a float, key by key
    and in place; the two kinds of value have two types here, so the loop
    is the map over the entries. *)
Definition normalize (n : Z) (pageRanks : dict nat) : dict float :=
  map (fun kv => (fst kv, (of_nat (snd kv) / of_Z n)%float)) pageRanks.

Definition random_walk (corpus : Graph) (damping_factor : float)
           (turns : nat) (start : nat) (draws : nat -> float) : result walk :=
  page0 <- random_choice (dict_keys corpus) start ;;
  for_each (seq 0 turns)
    (fun w i => sample_step corpus damping_factor w (draws i))
    {| page := Some page0; nextpage := None; pageRanks := [] |}.

Definition sample_pagerank (corpus : Graph) (damping_factor : float) (n : Z)
           (start : nat) (draws : nat -> float) : result (dict float) :=
  w <- random_walk corpus damping_factor (Z.to_nat n) start draws ;;
  Ok (normalize n (pageRanks w)).

(** A draw of [random.random()]: a float of [0, 1). *)
Definition in_unit_interval (u : float) : bool :=
  leb 0%float u && ltb u 1%float.

(** The largest float below 1, which [random.random()] can return:
    [1 - 2^-53]. *)
Definition below_one : float := 0x1.fffffffffffffp-1%float.

(** [0.5], [0.85] and [1e-17] as Python reads them. *)
Definition half : float := 0x1p-1%float.

Definition damping_point_85 : float := 0x1.b333333333333p-1%float.

Definition damping_1e_17 : float := 0x1.70ef54646d497p-57%float.

(** [7205759403792793 * 2^-53], the float just below [0.8]. *)
Definition below_four_fifths : float := 0x1.9999999999999p-1%float.

(** [(1 - damping_factor) / n], the least entry of a transition model. *)
Definition floor (damping_factor : float) (n : nat) : float :=
  ((1 - damping_factor) / of_nat n)%float.

End Binary64.

(** ** [iterate_pagerank] *)

(** First loop: [links_to[page] = set()] for every page. *)
Definition empty_links_to (corpus : Graph) : dict pyset :=
  fold_left (fun links_to page => dict_set page [] links_to)
            (dict_keys corpus) [].

(** [set(xs)] *)
Definition to_set (xs : list string) : pyset := set_update [] xs.

(** [s == set()] *)
Definition is_empty_set (s : pyset) : bool :=
  match s with
  | [] => true
  | _ :: _ => false
  end.

(** Second loop: a page without links gets, in place, every page of the
    corpus as its links.  The dictionary that is updated is the caller's. *)
Definition rewrite_sinks (corpus : Graph) : result Graph :=
  for_each (dict_keys corpus)
    (fun corpus page =>
       links <- subscript page corpus ;;
       if is_empty_set links then
         links <- subscript page corpus ;;
         Ok (dict_set page (set_update links (to_set (dict_keys corpus)))
                      corpus)
       else Ok corpus)
    corpus.

(** The [else] branch of the reverse-index loop: [links_to[link] = {page}]. *)
Definition new_key_branch (links_to : dict pyset) (link page : string)
  : result (dict pyset) :=
  Ok (dict_set link [page] links_to).

(** Third loop, one page: the initial rank and the reverse index.  The
    [else] branch is a parameter, so that a statement can speak of what the
    loop does whatever that branch is; the program's loop is [index_links]
    below. *)
Definition index_links_with
           (else_branch : dict pyset -> string -> string -> result (dict pyset))
           (corpus : Graph) (st : dict Qc * dict pyset) (page : string)
  : result (dict Qc * dict pyset) :=
  let pageRank := dict_set page (1 / num (List.length corpus)) (fst st) in
  links <- subscript page corpus ;;
  links_to <-
    for_each links
      (fun links_to link =>
         if dict_mem link links_to then
           s <- subscript link links_to ;;
           Ok (dict_set link (set_add page s) links_to)
         else else_branch links_to link page)
      (snd st) ;;
  Ok (pageRank, links_to).

Definition index_links := index_links_with new_key_branch.

(** [0.0001] *)
Definition tolerance : Qc := Q2Qc (1 # 10000).

(** The body of [for page in pageRank] inside the [while] loop.  The state
    is the table being updated in place and [maxdifference]. *)
Definition update_rank (corpus : Graph) (links_to : dict pyset)
           (damping_factor : Qc) (lastrank : dict Qc)
           (st : dict Qc * Qc) (page : string) : result (dict Qc * Qc) :=
  let pageRank :=
    dict_set page ((1 - damping_factor) / num (List.length corpus)) (fst st) in
  sources <- subscript page links_to ;;
  pageRank <-
    for_each sources
      (fun pageRank link =>
         acc <- subscript page pageRank ;;
         r <- subscript link pageRank ;;
         out <- subscript link corpus ;;
         Ok (dict_set page
                      (acc + damping_factor * (r / num (List.length out)))
                      pageRank))
      pageRank ;;
  new <- subscript page pageRank ;;
  old <- subscript page lastrank ;;
  if Qcgtb (Qcabs.Qcabs (new - old)) (snd st) then
    new <- subscript page pageRank ;;
    old <- subscript page lastrank ;;
    Ok (pageRank, Qcabs.Qcabs (new - old))
  else Ok (pageRank, snd st).

(** One turn of the [while] loop: [lastrank = pageRank.copy()],
    [maxdifference = 0], then the pass over all pages. *)
Definition rank_pass (corpus : Graph) (links_to : dict pyset)
           (damping_factor : Qc) (pageRank : dict Qc)
  : result (dict Qc * Qc) :=
  let lastrank := pageRank in
  for_each (dict_keys pageRank)
           (update_rank corpus links_to damping_factor lastrank)
           (pageRank, 0).

(** [while maxdifference > 0.0001: ...] on fuel: [None] when the fuel is
    spent and the condition still holds. *)
Fixpoint while_loop (fuel : nat) (corpus : Graph) (links_to : dict pyset)
         (damping_factor : Qc) (pageRank : dict Qc) (maxdifference : Qc)
  : result (option RankTable) :=
  if Qcgtb maxdifference tolerance then
    match fuel with
    | O => Ok None
    | S fuel' =>
        st <- rank_pass corpus links_to damping_factor pageRank ;;
        while_loop fuel' corpus links_to damping_factor (fst st) (snd st)
    end
  else Ok (Some pageRank).

(** The preprocessing of [iterate_pagerank]: the three [for] loops.
    Returns the caller's graph after the sink rewrite, the initial ranks and
    the reverse index. *)
Definition preprocess_with
           (else_branch : dict pyset -> string -> string -> result (dict pyset))
           (corpus : Graph) : result (Graph * (dict Qc * dict pyset)) :=
  let links_to := empty_links_to corpus in
  corpus <- rewrite_sinks corpus ;;
  st <- for_each (dict_keys corpus) (index_links_with else_branch corpus)
                 ([], links_to) ;;
  Ok (corpus, st).

Definition preprocess := preprocess_with new_key_branch.

(** The whole function.  The first component of the answer is the caller's
    graph when the function is left (or the fuel spent), the second the
    returned table. *)
Definition iterate_pagerank (fuel : nat) (corpus : Graph)
           (damping_factor : Qc) : result (Graph * option RankTable) :=
  pre <- preprocess corpus ;;
  ranks <- while_loop fuel (fst pre) (snd (snd pre)) damping_factor
                      (fst (snd pre)) 1 ;;
  Ok (fst pre, ranks).


(** [iterate_pagerank] with the sets of the reverse index read in the order
    [order]; [iterate_pagerank] itself reads them in the order in which the
    pages were added. *)
Definition iterate_pagerank_ordered (order : dict pyset -> dict pyset)
           (fuel : nat) (corpus : Graph) (damping_factor : Qc)
  : result (Graph * option RankTable) :=
  pre <- preprocess corpus ;;
  ranks <- while_loop fuel (fst pre) (order (snd (snd pre))) damping_factor
                      (fst (snd pre)) 1 ;;
  Ok (fst pre, ranks).

(** The state [(pageRank, maxdifference)] of the [while] loop [k] turns
    after the state [st]. *)
Fixpoint pass_state (corpus : Graph) (links_to : dict pyset)
         (damping_factor : Qc) (k : nat) (st : dict Qc * Qc)
  : result (dict Qc * Qc) :=
  match k with
  | O => Ok st
  | S k' =>
      st' <- rank_pass corpus links_to damping_factor (fst st) ;;
      pass_state corpus links_to damping_factor k' st'
  end.

(** The state of the [while] loop of [iterate_pagerank] after [k] turns. *)
Definition loop_state (corpus : Graph) (damping_factor : Qc) (k : nat)
  : result (dict Qc * Qc) :=
  pre <- preprocess corpus ;;
  pass_state (fst pre) (snd (snd pre)) damping_factor k (fst (snd pre), 1).

(** ** [crawl]

    The directory is what [os.listdir] and [open(...).read()] give: the
    names of the directory, in the order of the listing, each with what
    opening and reading it gives: the text of the file, or the exception
    that [open] or [read] raises ([OSError] for a sub-directory or a file
    that may not be read, [UnicodeDecodeError] for bytes that are no text).
    The regular-expression engine is not modelled: [findall contents]
    stands for [re.findall(pattern, contents)] with the pattern of the
    program, the list of the [href] values it captures. *)

Inductive file : Type :=
| Text (contents : string)
| Unreadable (e : exn).

Definition directory : Type := list (string * file).

(** [with open(...) as f: contents = f.read()] *)
Definition read_file (f : file) : result string :=
  match f with
  | Text contents => Ok contents
  | Unreadable e => Raise e
  end.

(** [s.endswith(suffix)] *)
Definition endswith (s suffix : string) : bool :=
  (String.length suffix <=? String.length s)%nat
  && String.eqb
       (substring (String.length s - String.length suffix)
                  (String.length suffix) s)
       suffix.

(** [s - t] on sets *)
Definition set_difference (s t : pyset) : pyset :=
  filter (fun x => negb (set_mem x t)) s.

(** The body of the first loop: a name that does not end in [.html] is
    skipped; the file of any other name is opened and read, and becomes a
    page with the links found in it other than the page itself. *)
Definition store_page (findall : string -> list string) (pages : Graph)
           (entry : string * file) : result Graph :=
  if negb (endswith (fst entry) ".html") then Ok pages
  else
    contents <- read_file (snd entry) ;;
    Ok (dict_set (fst entry)
                 (set_difference (to_set (findall contents)) [fst entry])
                 pages).

(** First loop: [for filename in os.listdir(directory)]. *)
Definition read_pages (findall : string -> list string) (dir : directory)
  : result Graph :=
  for_each dir (store_page findall) [].

(** Second loop: only the links to pages of the corpus are kept. *)
Definition keep_known_links (pages : Graph) : result Graph :=
  for_each (dict_keys pages)
    (fun pages filename =>
       links <- subscript filename pages ;;
       Ok (dict_set filename
                    (to_set (filter (fun link => dict_mem link pages) links))
                    pages))
    pages.

Definition crawl (findall : string -> list string) (dir : directory)
  : result Graph :=
  pages <- read_pages findall dir ;;
  keep_known_links pages.

(** Every [.html] entry of the directory can be opened and read. *)
Definition readable (dir : directory) : Prop :=
  forall name e, In (name, Unreadable e) dir -> endswith name ".html" = false.

(** ** [main]

    [listdir] gives the directory found at a path.  What [main] prints is
    represented by the tables it prints (the sorting and the formatting of
    the lines are left out). *)

Definition DAMPING : Qc := Q2Qc (85 # 100).

Definition SAMPLES : Z := 10000.

Inductive outcome : Type :=
| SysExit (message : string)
| Uncaught (e : exn)
| Running (sampled : RankTable)
| Finished (sampled iterated : RankTable).

(** [Running]: the sampling results are printed and the loop of
    [iterate_pagerank] has spent the fuel. *)
Definition main (findall : string -> list string)
           (listdir : string -> directory) (argv : list string)
           (start : nat) (draws : nat -> Qc) (fuel : nat) : outcome :=
  if negb (List.length argv =? 2)%nat then
    SysExit "Usage: python pagerank.py corpus"
  else
    match crawl findall (listdir (nth 1 argv "")) with
    | Raise e => Uncaught e
    | Ok corpus =>
        match sample_pagerank corpus DAMPING SAMPLES start draws with
        | Raise e => Uncaught e
        | Ok sampled =>
            match iterate_pagerank fuel corpus DAMPING with
            | Raise e => Uncaught e
            | Ok (_, None) => Running sampled
            | Ok (_, Some iterated) => Finished sampled iterated
            end
        end
    end.

(** No page links to itself. *)
Definition no_self_link (g : Graph) : Prop :=
  forall p links, dict_get p g = Some links -> ~ In p links.

(** ** Well-formed graphs

    The program's input is a Python dictionary of sets whose values only
    name keys of the dictionary (what [crawl] builds): keys without
    repetition, sets without repetition, no dangling link. *)

Fixpoint nodupb (l : list string) : bool :=
  match l with
  | [] => true
  | x :: l' => negb (set_mem x l') && nodupb l'
  end.

Definition subsetb (s t : list string) : bool :=
  forallb (fun x => set_mem x t) s.

Definition valid_graph (corpus : Graph) : bool :=
  nodupb (dict_keys corpus)
  && forallb (fun kv => nodupb (snd kv) && subsetb (snd kv) (dict_keys corpus))
             corpus.

(** A draw of [random.random()]: a number of [0, 1). *)
Definition unit_draw (u : Qc) : Prop := 0 <= u /\ u < 1.

Definition sum_values (d : dict Qc) : Qc :=
  fold_right Qcplus 0 (dict_values d).

(** What holds of the walk after [k] turns. *)
Definition walk_inv (corpus : Graph) (k : nat) (w : walk) : Prop :=
  (exists p, page w = Some p /\ In p (dict_keys corpus))
  /\ NoDup (dict_keys (pageRanks w))
  /\ sum_values (pageRanks w) = num k.

(** What holds of the counters of a walk started at the page [p0], after
    [k] turns that raised nothing, whatever the draws were: the counters
    add up to [k], they belong to pages of the corpus and are at least 1,
    and [p0] has a counter once a turn is done. *)
Definition counted (corpus : Graph) (p0 : string) (k : nat) (w : walk)
  : Prop :=
  NoDup (dict_keys (pageRanks w))
  /\ sum_values (pageRanks w) = num k
  /\ (forall key c, In (key, c) (pageRanks w) ->
                    In key (dict_keys corpus) /\ 1 <= c)
  /\ (k = 0%nat -> page w = Some p0)
  /\ ((1 <= k)%nat -> In p0 (dict_keys (pageRanks w))).

(** ** The reference definitions, in the words of the specification *)

(** What [transition_model] is to return for the entry [key]. *)
Definition reference_distribution (graph : Graph) (node : string)
           (damping : Qc) (key : string) : Qc :=
  match dict_get node graph with
  | Some (l :: ls) =>
      if set_mem key (l :: ls)
      then (1 - damping) / num (List.length graph)
           + damping / num (List.length (l :: ls))
      else (1 - damping) / num (List.length graph)
  | _ => 1 / num (List.length graph)
  end.

Definition outlinks (graph : Graph) (q : string) : pyset :=
  dict_get_default q [] graph.

(** [links_to(p)]: the nodes that link to [p], in the order of the graph. *)
Definition reference_links_to (graph : Graph) (p : string) : list string :=
  filter (fun q => set_mem p (outlinks graph q)) (dict_keys graph).

(** [(1 - damping) / |graph| + damping * sum over q in links_to(p) of
    rank_prev(q) / |outlinks(q)|]. *)
Definition reference_rank (graph : Graph) (damping : Qc)
           (rank_prev : string -> Qc) (p : string) : Qc :=
  (1 - damping) / num (List.length graph)
  + damping
    * fold_right Qcplus 0
        (map (fun q => rank_prev q / num (List.length (outlinks graph q)))
             (reference_links_to graph p)).

(** The value of a page in a table; 0 stands for a page the table lacks. *)
Definition rank_of (table : dict Qc) (q : string) : Qc :=
  dict_get_default q 0 table.

(** The value the inner loop of a pass leaves in [pageRank[p]]: the sum
    grows source by source; [rank_cur] is what the table holds for the
    other pages, and a source that is [p] itself is read from the table
    while [pageRank[p]] is being summed, so it contributes the running
    sum. *)
Definition computed_rank (graph : Graph) (damping : Qc)
           (rank_cur : string -> Qc) (p : string) (sources : list string)
  : Qc :=
  fold_left
    (fun acc q =>
       acc + damping * ((if String.eqb q p then acc else rank_cur q)
                        / num (List.length (outlinks graph q))))
    sources ((1 - damping) / num (List.length graph)).

(** The graph after the sink rewrite. *)
Definition rewritten (graph : Graph) : Graph :=
  map (fun kv =>
         (fst kv,
          if is_empty_set (snd kv) then dict_keys graph else snd kv))
      graph.

(** ** Deciding equality of tables (for the concrete runs) *)




(** ** Concrete graphs *)

Definition damping_085 : Qc := Q2Qc (85 # 100).

(** [{A: {B}, B: {}}] *)
Definition sink_pair : Graph := [("A", ["B"]); ("B", [])].

(** [{A: {B, C}, B: {C}, C: {A}}] *)
Definition triangle : Graph :=
  [("A", ["B"; "C"]); ("B", ["C"]); ("C", ["A"])].

(** [{C: {A}, B: {C}, A: {B}, E: {A}}]: a ring of three pages and a page
    that links into it. *)
Definition ring : Graph :=
  [("C", ["A"]); ("B", ["C"]); ("A", ["B"]); ("E", ["A"])].






(** [sink_pair] after the sink rewrite, its initial table, and its reverse
    index with the set of [B] iterated in the other order. *)
Definition sink_pair_rewritten : Graph := [("A", ["B"]); ("B", ["A"; "B"])].

Definition sink_pair_t0 : RankTable := map (fun k => (k, 1 / num 2)) ["A"; "B"].


(** A returned table in which [A] ranks below [B] and below one half. *)
Definition A_below_B (r : option RankTable) : bool :=
  match r with
  | Some t =>
      match dict_get "A" t, dict_get "B" t with
      | Some a, Some b => Qcgtb b a && Qcgtb (Q2Qc (1 # 2)) a
      | _, _ => false
      end
  | None => false
  end.

Definition returned {A : Type} (r : result (option A)) : option A :=
  match r with
  | Ok (Some t) => Some t
  | _ => None
  end.

(** A stream of draws: one half every time. *)
Definition half_draws : nat -> Qc := fun _ => Q2Qc (1 # 2).

(** A small site for the examples.  [whole_text] stands in for
    [re.findall]: it takes the whole text of a file as its only link. *)
Definition whole_text : string -> list string := fun contents => [contents].

Definition site : directory :=
  [("a.html", Text "b.html"); ("b.html", Text "c.html");
   ("notes.txt", Text "a.html"); ("c.html", Text "c.html")].

(** A directory with a sub-directory named like a page. *)
Definition site_with_folder : directory :=
  [("a.html", Text "b.html"); ("old.html", Unreadable OSError);
   ("b.html", Text "a.html")].

(** [{p0: {p1}, p1: {}, p2: {}}] *)
Definition three_pages : Graph := [("p0", ["p1"]); ("p1", []); ("p2", [])].

(** [{p0: {}, p1: {p0}, ..., p4: {p0}}]: five pages, the first a sink. *)
Definition five_pages : Graph :=
  [("p0", []); ("p1", ["p0"]); ("p2", ["p0"]); ("p3", ["p0"]);
   ("p4", ["p0"])].

(** The value of a computation that returned, [default] otherwise. *)
Definition value_of {A : Type} (r : result A) (default : A) : A :=
  match r with
  | Ok a => a
  | Raise _ => default
  end.

(** [{A: {B, Z}, B: {}}]: the link [Z] is no page of the graph. *)
Definition dangling : Graph := [("A", ["B"; "Z"]); ("B", [])].

(** The table [iterate_pagerank] returned, and the graph it left. *)
Definition returned_table (r : result (Graph * option RankTable))
  : result RankTable :=
  match r with
  | Ok (_, Some t) => Ok t
  | Ok (_, None) => Raise KeyError
  | Raise e => Raise e
  end.

Definition graph_after (r : result (Graph * option RankTable)) : Graph :=
  match r with
  | Ok (g, _) => g
  | Raise _ => []
  end.

(** * Lemmas *)

(** ** The error monad *)

Lemma bind_Ok {A B : Type} (m : result A) (k : A -> result B) (b : B) :
  bind m k = Ok b -> exists a, m = Ok a /\ k a = Ok b.
Proof.
  destruct m as [a|e]; simpl; intros H; [eauto | discriminate].
Qed.

Lemma for_each_app {A S : Type} (xs ys : list A) (body : S -> A -> result S)
      (s : S) :
  for_each (xs ++ ys) body s = (s' <- for_each xs body s ;; for_each ys body s').
Proof.
  revert s; induction xs as [|x xs IH]; intros s; simpl; [reflexivity|].
  destruct (body s x); simpl; auto.
Qed.

(** ** Sets *)

Lemma set_mem_In (x : string) (s : pyset) : set_mem x s = true <-> In x s.
Proof.
  unfold set_mem. rewrite existsb_exists. split.
  - intros [y [Hy E]]. apply String.eqb_eq in E. subst; assumption.
  - intros H. exists x. split; [assumption | apply String.eqb_refl].
Qed.

Lemma set_mem_false (x : string) (s : pyset) :
  set_mem x s = false <-> ~ In x s.
Proof.
  rewrite <- set_mem_In. destruct (set_mem x s); split; congruence.
Qed.

Lemma nodupb_NoDup (l : list string) : nodupb l = true <-> NoDup l.
Proof.
  induction l as [|x l IH]; simpl.
  - split; [constructor | reflexivity].
  - rewrite andb_true_iff, negb_true_iff, set_mem_false, IH. split.
    + intros [? ?]; constructor; assumption.
    + intros H; inversion H; subst; split; assumption.
Qed.

Lemma subsetb_incl (s t : list string) : subsetb s t = true <-> incl s t.
Proof.
  unfold subsetb. rewrite forallb_forall. unfold incl.
  split; intros H x Hx; apply set_mem_In, H, Hx.
Qed.

Lemma set_add_new (x : string) (s : pyset) :
  ~ In x s -> set_add x s = s ++ [x].
Proof.
  intros H. unfold set_add. apply set_mem_false in H. rewrite H. reflexivity.
Qed.

Lemma set_update_NoDup (t s : pyset) :
  NoDup (s ++ t) -> set_update s t = s ++ t.
Proof.
  unfold set_update. revert s. induction t as [|x t IH]; intros s H; simpl.
  - rewrite app_nil_r. reflexivity.
  - assert (Hx : ~ In x s).
    { intros Hin. apply NoDup_remove_2 in H. apply H, in_or_app. now left. }
    rewrite (set_add_new _ _ Hx).
    rewrite IH; rewrite <- app_assoc; simpl; [reflexivity | assumption].
Qed.

Lemma to_set_NoDup (l : list string) : NoDup l -> to_set l = l.
Proof. intros H. unfold to_set. now rewrite set_update_NoDup. Qed.

(** ** Dictionaries *)

Section DictFacts.
Context {V : Type}.
Implicit Types (d : dict V) (k : string) (v : V).

Lemma dict_get_In_keys k d v : dict_get k d = Some v -> In k (dict_keys d).
Proof.
  induction d as [|[k' v'] d IH]; simpl; [discriminate|].
  destruct (String.eqb_spec k k'); [subst; auto | auto].
Qed.

Lemma dict_get_None k d : dict_get k d = None <-> ~ In k (dict_keys d).
Proof.
  induction d as [|[k' v'] d IH]; simpl; [tauto|].
  destruct (String.eqb_spec k k').
  - subst. split; [discriminate | tauto].
  - rewrite IH. intuition congruence.
Qed.

Lemma dict_get_Some_of_key k d :
  In k (dict_keys d) -> exists v, dict_get k d = Some v.
Proof.
  intros H. destruct (dict_get k d) eqn:E; [eauto|].
  apply dict_get_None in E. contradiction.
Qed.

Lemma dict_get_In k d v : dict_get k d = Some v -> In (k, v) d.
Proof.
  induction d as [|[k' v'] d IH]; simpl; [discriminate|].
  destruct (String.eqb_spec k k'); [|auto].
  intros [= <-]. subst. auto.
Qed.

Lemma In_dict_get k d v :
  NoDup (dict_keys d) -> In (k, v) d -> dict_get k d = Some v.
Proof.
  induction d as [|[k' v'] d IH]; simpl; [tauto|].
  intros Hnd [H|H]; inversion Hnd; subst.
  - injection H as -> ->. now rewrite String.eqb_refl.
  - destruct (String.eqb_spec k k'); [|auto].
    subst. exfalso. apply H2. apply (in_map fst) in H. exact H.
Qed.

Lemma dict_get_set_eq k v d : dict_get k (dict_set k v d) = Some v.
Proof.
  induction d as [|[k' v'] d IH]; simpl.
  - now rewrite String.eqb_refl.
  - destruct (String.eqb_spec k k') as [->|Hne]; simpl.
    + now rewrite String.eqb_refl.
    + apply String.eqb_neq in Hne. now rewrite Hne.
Qed.

Lemma dict_get_set_neq k k' v d :
  k <> k' -> dict_get k' (dict_set k v d) = dict_get k' d.
Proof.
  intros Hne. induction d as [|[k0 v0] d IH]; simpl.
  - destruct (String.eqb_spec k' k); [congruence | reflexivity].
  - destruct (String.eqb_spec k k0) as [->|Hne0]; simpl.
    + destruct (String.eqb_spec k' k0); [congruence | reflexivity].
    + destruct (String.eqb_spec k' k0); [reflexivity | assumption].
Qed.

Lemma dict_keys_set_old k v d :
  In k (dict_keys d) -> dict_keys (dict_set k v d) = dict_keys d.
Proof.
  induction d as [|[k0 v0] d IH]; simpl; [tauto|].
  intros H. destruct (String.eqb_spec k k0) as [->|Hne]; simpl.
  - reflexivity.
  - f_equal. apply IH. destruct H; congruence.
Qed.

Lemma dict_set_new k v d :
  ~ In k (dict_keys d) -> dict_set k v d = d ++ [(k, v)].
Proof.
  induction d as [|[k0 v0] d IH]; simpl; [reflexivity|].
  intros H. destruct (String.eqb_spec k k0) as [->|Hne]; [tauto|].
  f_equal. apply IH. tauto.
Qed.

(** [for key in keys: d[key] = v] from a dictionary that has none of
    them. *)
Lemma dict_fill (f : string -> V) (keys : list string) d :
  NoDup (dict_keys d ++ keys) ->
  fold_left (fun m key => dict_set key (f key) m) keys d
  = d ++ map (fun key => (key, f key)) keys.
Proof.
  revert d. induction keys as [|x keys IH]; intros d H; simpl.
  - now rewrite app_nil_r.
  - assert (Hx : ~ In x (dict_keys d)).
    { intros Hin. apply NoDup_remove_2 in H. apply H, in_or_app. now left. }
    rewrite (dict_set_new _ _ _ Hx). rewrite IH.
    + rewrite <- app_assoc. reflexivity.
    + unfold dict_keys. rewrite map_app. simpl.
      rewrite <- app_assoc. exact H.
Qed.

Lemma dict_get_map_key (f : string -> V) (keys : list string) k :
  In k keys -> dict_get k (map (fun key => (key, f key)) keys) = Some (f k).
Proof.
  induction keys as [|x keys IH]; simpl; [tauto|].
  intros H. destruct (String.eqb_spec k x) as [->|Hne]; [reflexivity|].
  apply IH. destruct H; congruence.
Qed.

Lemma dict_keys_map_key (f : string -> V) (keys : list string) :
  dict_keys (map (fun key => (key, f key)) keys) = keys.
Proof.
  unfold dict_keys. rewrite map_map. simpl. apply map_id.
Qed.
End DictFacts.

Lemma In_dict_set {V : Type} (k k' : string) (v v' : V) (d : dict V) :
  In (k', v') (dict_set k v d) -> (k' = k /\ v' = v) \/ In (k', v') d.
Proof.
  induction d as [|[k0 v0] d IH]; simpl.
  - intros [[= <- <-]|[]]. auto.
  - destruct (String.eqb_spec k k0) as [->|Hne]; simpl.
    + intros [[= <- <-]|H]; auto.
    + intros [H|H]; [auto|]. destruct (IH H); auto.
Qed.

Lemma subscript_inv {V : Type} (k : string) (d : dict V) (v : V) :
  subscript k d = Ok v -> dict_get k d = Some v.
Proof.
  unfold subscript. destruct (dict_get k d); [|discriminate].
  now intros [= ->].
Qed.

Lemma dict_keys_set_incl {V : Type} (k k' : string) (v : V) (d : dict V) :
  In k' (dict_keys d) -> In k' (dict_keys (dict_set k v d)).
Proof.
  intros H. destruct (in_dec string_dec k (dict_keys d)) as [Hin|Hnin].
  - now rewrite dict_keys_set_old.
  - rewrite (dict_set_new _ _ _ Hnin). unfold dict_keys in *.
    rewrite map_app. apply in_or_app. now left.
Qed.

Lemma dict_keys_set_self {V : Type} (k : string) (v : V) (d : dict V) :
  In k (dict_keys (dict_set k v d)).
Proof. eapply dict_get_In_keys, dict_get_set_eq. Qed.

Lemma dict_keys_map_snd {V W : Type} (h : string * V -> W) (d : dict V) :
  dict_keys (map (fun kv => (fst kv, h kv)) d) = dict_keys d.
Proof. unfold dict_keys. rewrite map_map. reflexivity. Qed.

Lemma subscript_Ok {V : Type} (k : string) (d : dict V) (v : V) :
  dict_get k d = Some v -> subscript k d = Ok v.
Proof. intros H. unfold subscript. now rewrite H. Qed.

(** A dictionary whose values are changed entry by entry. *)
Lemma dict_get_map_values {V W : Type} (g : string -> V -> W) (d : dict V)
      (k : string) :
  dict_get k (map (fun kv => (fst kv, g (fst kv) (snd kv))) d)
  = option_map (g k) (dict_get k d).
Proof.
  induction d as [|[k' v'] d IH]; simpl; [reflexivity|].
  destruct (String.eqb_spec k k'); [subst; reflexivity | exact IH].
Qed.

Lemma dict_set_map_key {V : Type} (f : string -> V) (keys : list string)
      (x : string) (v : V) :
  NoDup keys -> In x keys ->
  dict_set x v (map (fun key => (key, f key)) keys)
  = map (fun key => (key, if String.eqb key x then v else f key)) keys.
Proof.
  induction keys as [|k keys IH]; simpl; [tauto|].
  intros Hnd Hin. inversion Hnd as [|? ? Hk Hnd']; subst.
  destruct (String.eqb_spec x k) as [->|Hne].
  - rewrite String.eqb_refl. f_equal.
    apply map_ext_in. intros a Ha.
    destruct (String.eqb_spec a k); [subst; contradiction | reflexivity].
  - destruct (String.eqb_spec k x); [congruence|].
    f_equal. apply IH; [assumption | destruct Hin; congruence].
Qed.

(** ** Numbers *)

Lemma num_pos (n : nat) : (0 < n)%nat -> 0 < num n.
Proof.
  intros H. unfold num, Qclt. cbn [this Q2Qc]. rewrite !Qred_correct.
  unfold Qlt. simpl. lia.
Qed.

Lemma num_neq_0 (n : nat) : (0 < n)%nat -> num n <> 0.
Proof.
  intros H E. apply num_pos in H. rewrite E in H.
  revert H. apply Qcle_not_lt, Qcle_refl.
Qed.

Lemma num_S (n : nat) : num (S n) = num n + 1.
Proof.
  unfold num, Qcplus. apply Q2Qc_eq_iff. cbn [this Q2Qc].
  rewrite !Qred_correct, Nat2Z.inj_succ. unfold Qeq, Qplus. simpl. lia.
Qed.

Lemma Qcgtb_true (x y : Qc) : Qcgtb x y = true <-> y < x.
Proof.
  pose proof (Qcgt_alt x y) as H. cbv beta in H.
  unfold Qcgtb, Qclt. destruct (x ?= y); intuition congruence.
Qed.

Lemma Qcgtb_false (x y : Qc) : Qcgtb x y = false <-> x <= y.
Proof.
  pose proof (Qcle_alt x y) as H.
  unfold Qcgtb. destruct (x ?= y); intuition congruence.
Qed.

Lemma Qcplus_le_r (x e : Qc) : 0 <= e -> x <= x + e.
Proof.
  intros H. apply Qcle_minus_iff.
  replace (x + e + - x) with e by ring. exact H.
Qed.

Lemma Qcinv_pos (x : Qc) : 0 < x -> 0 < / x.
Proof.
  unfold Qclt, Qcinv. cbn [this Q2Qc]. rewrite !Qred_correct.
  apply Qinv_lt_0_compat.
Qed.

Lemma Qcdiv_pos (x y : Qc) : 0 < x -> 0 < y -> 0 < x / y.
Proof.
  intros Hx Hy. unfold Qcdiv.
  replace 0 with (0 * / y) by ring.
  apply Qcmult_lt_compat_r; [apply Qcinv_pos|]; assumption.
Qed.

Lemma Qcdiv_nonneg (x y : Qc) : 0 <= x -> 0 < y -> 0 <= x / y.
Proof.
  intros Hx Hy. unfold Qcdiv.
  replace 0 with (0 * / y) by ring.
  apply Qcmult_le_compat_r; [assumption|].
  apply Qclt_le_weak, Qcinv_pos, Hy.
Qed.

(** ** Sums over a table *)

Lemma sum_values_const (c : Qc) (keys : list string) :
  sum_values (map (fun key => (key, c)) keys) = num (List.length keys) * c.
Proof.
  unfold sum_values, dict_values.
  induction keys as [|k keys IH]; simpl.
  - change (num 0) with 0. ring.
  - rewrite IH, num_S. ring.
Qed.

Lemma sum_values_set (k : string) (p v : Qc) (d : dict Qc) :
  dict_get k d = Some p ->
  sum_values (dict_set k v d) = sum_values d - p + v.
Proof.
  unfold sum_values, dict_values.
  induction d as [|[k' v'] d IH]; simpl; [discriminate|].
  destruct (String.eqb_spec k k') as [->|Hne]; simpl.
  - intros [= ->]. ring.
  - intros H. rewrite (IH H). ring.
Qed.

Lemma sum_values_set_new (k : string) (v : Qc) (d : dict Qc) :
  dict_get k d = None ->
  sum_values (dict_set k v d) = sum_values d + v.
Proof.
  unfold sum_values, dict_values.
  induction d as [|[k' v'] d IH]; simpl.
  - intros _. ring.
  - destruct (String.eqb_spec k k') as [->|Hne]; simpl; [discriminate|].
    intros H. rewrite (IH H). ring.
Qed.

Lemma sum_values_scale (c : Qc) (d : dict Qc) :
  sum_values (map (fun kv => (fst kv, snd kv / c)) d) = sum_values d / c.
Proof.
  unfold sum_values, dict_values.
  induction d as [|[k v] d IH]; simpl.
  - unfold Qcdiv. ring.
  - rewrite IH. unfold Qcdiv. ring.
Qed.

(** ** Well-formed graphs *)

Lemma valid_graph_keys (g : Graph) : valid_graph g = true -> NoDup (dict_keys g).
Proof.
  unfold valid_graph. rewrite andb_true_iff. intros [H _].
  now apply nodupb_NoDup.
Qed.

Lemma valid_graph_links (g : Graph) (p : string) (links : pyset) :
  valid_graph g = true -> dict_get p g = Some links ->
  NoDup links /\ incl links (dict_keys g).
Proof.
  unfold valid_graph. rewrite andb_true_iff, forallb_forall. intros [_ H] Hp.
  apply dict_get_In in Hp. specialize (H _ Hp). simpl in H.
  apply andb_true_iff in H. destruct H as [H1 H2].
  split; [now apply nodupb_NoDup | now apply subsetb_incl].
Qed.

Lemma dict_keys_length {V : Type} (d : dict V) :
  List.length (dict_keys d) = List.length d.
Proof. apply length_map. Qed.

Lemma graph_nonempty {V : Type} (d : dict V) (k : string) :
  In k (dict_keys d) -> (0 < List.length d)%nat.
Proof. destruct d; simpl; [tauto | lia]. Qed.

(** ** [transition_model] *)

(** A loop that rewrites the entries of the keys [todo], one after the
    other, each through [upd]. *)
Section PointwiseUpdate.
Context {V : Type}.
Variables (upd : V -> V) (body : dict V -> string -> result (dict V)).
Hypothesis body_updates :
  forall m link v, dict_get link m = Some v ->
                   body m link = Ok (dict_set link (upd v) m).

Lemma pointwise_update (f : string -> V) (keys todo seen : list string) :
  NoDup keys -> NoDup (seen ++ todo) -> incl todo keys ->
  for_each todo body
    (map (fun key => (key, if set_mem key seen then upd (f key) else f key))
         keys)
  = Ok (map (fun key =>
               (key, if set_mem key (seen ++ todo) then upd (f key) else f key))
            keys).
Proof.
  intros Hk. revert seen.
  induction todo as [|x todo IH]; intros seen Hnd Hin; simpl.
  - now rewrite app_nil_r.
  - assert (Hx : In x keys) by (apply Hin; now left).
    assert (Hs : set_mem x seen = false).
    { apply set_mem_false. intros H. apply NoDup_remove_2 in Hnd.
      apply Hnd, in_or_app. now left. }
    rewrite (body_updates _ x (f x)).
    2:{ rewrite (dict_get_map_key
                   (fun key => if set_mem key seen then upd (f key) else f key))
          by exact Hx.
        now rewrite Hs. }
    simpl.
    rewrite (dict_set_map_key
               (fun key => if set_mem key seen then upd (f key) else f key))
      by assumption.
    replace (seen ++ x :: todo) with ((seen ++ [x]) ++ todo)
      by (rewrite <- app_assoc; reflexivity).
    rewrite <- IH.
    + f_equal. apply map_ext. intros a. f_equal.
      unfold set_mem at 2. rewrite existsb_app. simpl.
      fold (set_mem a seen). rewrite orb_false_r.
      destruct (String.eqb_spec a x) as [->|Hne].
      * rewrite orb_true_r. reflexivity.
      * rewrite orb_false_r. reflexivity.
    + rewrite <- app_assoc. exact Hnd.
    + intros a Ha. apply Hin. now right.
Qed.
End PointwiseUpdate.

(** The table [transition_model] returns, entry by entry. *)
Lemma transition_model_exact (corpus : Graph) (damping_factor : Qc)
      (page : string) (links : pyset) :
  NoDup (dict_keys corpus) ->
  dict_get page corpus = Some links ->
  NoDup links -> incl links (dict_keys corpus) ->
  transition_model corpus page damping_factor
  = Ok (map (fun key =>
               (key, reference_distribution corpus page damping_factor key))
            (dict_keys corpus)).
Proof.
  intros Hk Hp Hl Hin. unfold transition_model.
  rewrite (subscript_Ok _ _ _ Hp). simpl.
  unfold reference_distribution. rewrite Hp.
  destruct links as [|l ls].
  - simpl. rewrite (dict_fill (fun _ => 1 / num (List.length corpus)))
      by (simpl; assumption).
    reflexivity.
  - cbn [List.length Nat.eqb negb].
    rewrite (dict_fill (fun _ => (1 - damping_factor) / num (List.length corpus)))
      by (simpl; assumption).
    cbn [app].
    exact (pointwise_update
             (fun p => p + damping_factor / num (List.length (l :: ls)))
             (fun model link =>
                p <- subscript link model ;;
                Ok (dict_set link
                      (p + damping_factor / num (List.length (l :: ls))) model))
             (fun m link v E =>
                f_equal (fun r => bind r _) (subscript_Ok link m v E))
             (fun _ => (1 - damping_factor) / num (List.length corpus))
             (dict_keys corpus) (l :: ls) [] Hk Hl Hin).
Qed.

(** The probabilities of a returned model add up to 1, whatever the
    damping factor. *)
Lemma add_links_sum (extra : Qc) (todo : list string) (model model' : dict Qc) :
  for_each todo
    (fun model link =>
       p <- subscript link model ;; Ok (dict_set link (p + extra) model))
    model = Ok model' ->
  sum_values model' = sum_values model + num (List.length todo) * extra.
Proof.
  revert model. induction todo as [|x todo IH]; intros model; simpl.
  - intros [= <-]. change (num 0) with 0. ring.
  - intros H. apply bind_Ok in H. destruct H as [m1 [H1 H2]].
    apply bind_Ok in H1. destruct H1 as [p [Hp H1]]. injection H1 as <-.
    unfold subscript in Hp. destruct (dict_get x model) eqn:E; [|discriminate].
    injection Hp as ->.
    rewrite (IH _ H2), (sum_values_set _ _ _ _ E), num_S. ring.
Qed.

Lemma transition_model_sum (corpus : Graph) (page : string) (d : Qc)
      (model : dict Qc) :
  NoDup (dict_keys corpus) ->
  transition_model corpus page d = Ok model ->
  sum_values model = 1.
Proof.
  intros Hk H. unfold transition_model in H.
  apply bind_Ok in H. destruct H as [links [Hl H]].
  unfold subscript in Hl. destruct (dict_get page corpus) eqn:E; [|discriminate].
  injection Hl as ->.
  assert (HN : num (List.length corpus) <> 0).
  { apply num_neq_0. eapply graph_nonempty, dict_get_In_keys, E. }
  destruct links as [|l ls].
  - simpl in H. injection H as <-.
    rewrite (dict_fill (fun _ => 1 / num (List.length corpus)))
      by (simpl; assumption).
    cbn [app]. rewrite sum_values_const, dict_keys_length. now field.
  - cbn [List.length Nat.eqb negb] in H.
    rewrite (dict_fill (fun _ => (1 - d) / num (List.length corpus))) in H
      by (simpl; assumption).
    apply add_links_sum in H. rewrite H. cbn [app].
    rewrite sum_values_const, dict_keys_length.
    assert (HL : num (List.length (l :: ls)) <> 0)
      by (apply num_neq_0; simpl; lia).
    change (S (List.length ls)) with (List.length (l :: ls)).
    now field.
Qed.

Lemma transition_model_keys (corpus : Graph) (page : string) (d : Qc)
      (links : pyset) :
  valid_graph corpus = true -> dict_get page corpus = Some links ->
  exists model,
    transition_model corpus page d = Ok model
    /\ dict_keys model = dict_keys corpus
    /\ sum_values model = 1.
Proof.
  intros Hv Hp. pose proof (valid_graph_keys _ Hv) as Hk.
  destruct (valid_graph_links _ _ _ Hv Hp) as [Hl Hin].
  pose proof (transition_model_exact corpus d page links Hk Hp Hl Hin) as E.
  eexists. split; [exact E|]. split.
  - apply dict_keys_map_key.
  - eapply transition_model_sum; eassumption.
Qed.

(** ** [sample_pagerank] *)

(** *** In exact arithmetic

    With exact numbers the entries of a transition model add up to 1, so a
    draw of [0, 1) always selects a page.  These lemmas are about the
    exact sampler only; no property of the program is drawn from them. *)

(** The cumulative loop breaks before the entries are exhausted once their
    total exceeds the draw. *)
Lemma draw_selects (entries : dict Qc) (choice total : Qc)
      (np : option string) :
  total <= choice -> choice < total + sum_values entries ->
  exists key, draw entries choice total np = Some key
              /\ In key (dict_keys entries).
Proof.
  revert total. induction entries as [|[k p] entries IH]; intros total Hle Hlt.
  - exfalso. unfold sum_values in Hlt. simpl in Hlt.
    rewrite Qcplus_0_r in Hlt. exact (Qcle_not_lt _ _ Hle Hlt).
  - simpl. destruct (Qcgtb (total + p) choice) eqn:E.
    + exists k. split; [reflexivity | now left].
    + apply Qcgtb_false in E.
      destruct (IH (total + p) E) as [key [Hd Hin]].
      * unfold sum_values in *. simpl in Hlt.
        now rewrite Qcplus_assoc in Hlt.
      * exists key. split; [assumption | now right].
Qed.

Lemma dict_set_NoDup {V : Type} (k : string) (v : V) (d : dict V) :
  NoDup (dict_keys d) -> NoDup (dict_keys (dict_set k v d)).
Proof.
  intros H. destruct (in_dec string_dec k (dict_keys d)) as [Hin|Hnin].
  - now rewrite dict_keys_set_old.
  - rewrite (dict_set_new _ _ _ Hnin). unfold dict_keys. rewrite map_app.
    simpl. apply NoDup_app; [assumption | repeat constructor; simpl; tauto|].
    intros a Ha [<-|[]]. contradiction.
Qed.

Lemma sum_values_incr (k : string) (d : dict Qc) :
  sum_values (dict_set k (dict_get_default k 0 d + 1) d) = sum_values d + 1.
Proof.
  unfold dict_get_default. destruct (dict_get k d) eqn:E.
  - rewrite (sum_values_set _ _ _ _ E). ring.
  - rewrite (sum_values_set_new _ _ _ E). ring.
Qed.

Lemma sample_step_inv (corpus : Graph) (d : Qc) (k : nat) (w : walk)
      (choice : Qc) :
  valid_graph corpus = true -> unit_draw choice -> walk_inv corpus k w ->
  exists w', sample_step corpus d w choice = Ok w'
             /\ walk_inv corpus (S k) w'.
Proof.
  intros Hv [H0 H1] [[p [Hp Hin]] [Hnd Hsum]].
  unfold sample_step. rewrite Hp.
  destruct (dict_get_Some_of_key _ _ Hin) as [links Hl].
  destruct (transition_model_keys corpus p d links Hv Hl)
    as [model [-> [Hkeys Hone]]].
  simpl.
  destruct (draw_selects model choice 0 (nextpage w)) as [key [Hd Hkey]].
  - exact H0.
  - now rewrite Hone, Qcplus_0_l.
  - eexists. split; [reflexivity|]. repeat split; simpl.
    + exists key. rewrite Hd. split; [reflexivity | now rewrite <- Hkeys].
    + now apply dict_set_NoDup.
    + rewrite sum_values_incr, Hsum, num_S. reflexivity.
Qed.

Lemma random_walk_inv (corpus : Graph) (d : Qc) (draws : nat -> Qc)
      (n a k : nat) (w : walk) :
  valid_graph corpus = true -> (forall i, unit_draw (draws i)) ->
  walk_inv corpus k w ->
  exists w',
    for_each (seq a n) (fun w i => sample_step corpus d w (draws i)) w = Ok w'
    /\ walk_inv corpus (n + k) w'.
Proof.
  intros Hv Hd. revert a k w.
  induction n as [|n IH]; intros a k w Hw; simpl.
  - eauto.
  - destruct (sample_step_inv corpus d k w (draws a) Hv (Hd a) Hw)
      as [w1 [-> Hw1]].
    simpl. destruct (IH (S a) (S k) w1 Hw1) as [w' [E Hw']].
    exists w'. split; [assumption|]. now rewrite Nat.add_succ_r in Hw'.
Qed.

Lemma random_choice_In (seq : list string) (r : nat) :
  seq <> [] -> exists p, random_choice seq r = Ok p /\ In p seq.
Proof.
  destruct seq as [|x seq]; [congruence|]. intros _.
  eexists. split; [reflexivity|].
  apply nth_In. apply Nat.mod_upper_bound. simpl. lia.
Qed.

Lemma random_walk_runs (corpus : Graph) (d : Qc) (turns start : nat)
      (draws : nat -> Qc) :
  valid_graph corpus = true -> corpus <> [] ->
  (forall i, unit_draw (draws i)) ->
  exists w, random_walk corpus d turns start draws = Ok w
            /\ walk_inv corpus turns w.
Proof.
  intros Hv Hne Hd. unfold random_walk.
  destruct (random_choice_In (dict_keys corpus) start) as [p [-> Hp]].
  { destruct corpus; [congruence | discriminate]. }
  simpl.
  destruct (random_walk_inv corpus d draws turns 0 0
              {| page := Some p; nextpage := None; pageRanks := [] |} Hv Hd)
    as [w [E Hw]].
  - repeat split; simpl; eauto. constructor.
  - exists w. split; [assumption|]. now rewrite Nat.add_0_r in Hw.
Qed.

Lemma dict_get_app_r {V : Type} (k : string) (d1 d2 : dict V) :
  ~ In k (dict_keys d1) -> dict_get k (d1 ++ d2) = dict_get k d2.
Proof.
  induction d1 as [|[k' v'] d1 IH]; simpl; [reflexivity|].
  intros H. destruct (String.eqb_spec k k'); [subst; tauto | apply IH; tauto].
Qed.

Lemma dict_set_app_r {V : Type} (k : string) (v : V) (d1 d2 : dict V) :
  ~ In k (dict_keys d1) -> dict_set k v (d1 ++ d2) = d1 ++ dict_set k v d2.
Proof.
  induction d1 as [|[k' v'] d1 IH]; simpl; [reflexivity|].
  intros H. destruct (String.eqb_spec k k'); [subst; tauto|].
  f_equal. apply IH. tauto.
Qed.

(** The closing loop divides every counter, in place. *)
Lemma normalize_aux (n : Z) (todo done : dict Qc) :
  NoDup (dict_keys (done ++ todo)) ->
  for_each (dict_keys todo)
    (fun ranks page =>
       c <- subscript page ranks ;; Ok (dict_set page (c / Z2Qc n) ranks))
    (done ++ todo)
  = Ok (done ++ map (fun kv => (fst kv, snd kv / Z2Qc n)) todo).
Proof.
  revert done. induction todo as [|[k v] todo IH]; intros done Hnd.
  - reflexivity.
  - assert (Hk : ~ In k (dict_keys done)).
    { unfold dict_keys in *. rewrite map_app in Hnd. simpl in Hnd.
      intros Hin. apply NoDup_remove_2 in Hnd. apply Hnd, in_or_app.
      now left. }
    cbn [dict_keys map fst for_each].
    unfold subscript at 1. rewrite (dict_get_app_r _ _ _ Hk).
    cbn [dict_get]. rewrite String.eqb_refl. cbn [bind].
    rewrite (dict_set_app_r _ _ _ _ Hk). cbn [dict_set].
    rewrite String.eqb_refl.
    change (done ++ (k, v / Z2Qc n) :: todo)
      with (done ++ [(k, v / Z2Qc n)] ++ todo).
    rewrite app_assoc.
    fold (dict_keys todo). rewrite IH.
    + rewrite <- app_assoc. reflexivity.
    + rewrite <- app_assoc. unfold dict_keys in *.
      rewrite map_app in *. exact Hnd.
Qed.

Lemma normalize_exact (n : Z) (pageRanks : dict Qc) :
  NoDup (dict_keys pageRanks) ->
  normalize n pageRanks
  = Ok (map (fun kv => (fst kv, snd kv / Z2Qc n)) pageRanks).
Proof. intros H. exact (normalize_aux n pageRanks [] H). Qed.

(** *** What holds of the sampler whatever the draws are

    The lemmas above rest on the exact total of a transition model; the
    ones below do not look at the draws, so they hold of a walk in which a
    turn selects no page as well. *)





Lemma transition_model_page (corpus : Graph) (p : string) (d : Qc)
      (model : dict Qc) :
  transition_model corpus p d = Ok model -> In p (dict_keys corpus).
Proof.
  unfold transition_model. intros H. apply bind_Ok in H.
  destruct H as [links [Hl _]].
  eapply dict_get_In_keys, subscript_inv, Hl.
Qed.



(** A turn that raises nothing counts the page the walk stands on. *)
Lemma sample_step_counted (corpus : Graph) (d : Qc) (p0 : string) (k : nat)
      (w w' : walk) (choice : Qc) :
  sample_step corpus d w choice = Ok w' ->
  counted corpus p0 k w -> counted corpus p0 (S k) w'.
Proof.
  intros E [Hnd [Hsum [Hc [H0 H1]]]].
  unfold sample_step in E. destruct (page w) as [p|] eqn:Hp; [|discriminate E].
  apply bind_Ok in E. destruct E as [model [Hm E]].
  apply transition_model_page in Hm.
  assert (Hw' : pageRanks w'
                = dict_set p (dict_get_default p 0 (pageRanks w) + 1)
                           (pageRanks w)) by (injection E as <-; reflexivity).
  clear E. unfold counted. rewrite Hw'. split; [|split; [|split; [|split]]].
  - now apply dict_set_NoDup.
  - rewrite sum_values_incr, Hsum, num_S. reflexivity.
  - intros key c Hkc. apply In_dict_set in Hkc.
    destruct Hkc as [[-> ->]|Hkc]; [|now apply Hc].
    split; [exact Hm|].
    unfold dict_get_default. destruct (dict_get p (pageRanks w)) eqn:Eg.
    + apply dict_get_In, Hc in Eg. destruct Eg as [_ Hq].
      rewrite Qcplus_comm. apply Qcplus_le_r.
      apply Qcle_trans with 1; [vm_compute; discriminate | exact Hq].
    + rewrite Qcplus_0_l. apply Qcle_refl.
  - intros Hk. discriminate Hk.
  - intros _. destruct k as [|k].
    + assert (Hq : p = p0) by (pose proof (H0 eq_refl); congruence).
      subst p0. apply dict_keys_set_self.
    + apply dict_keys_set_incl, H1. lia.
Qed.

Lemma walk_counted (corpus : Graph) (d : Qc) (draws : nat -> Qc)
      (p0 : string) (n a k : nat) (w w' : walk) :
  for_each (seq a n) (fun w i => sample_step corpus d w (draws i)) w = Ok w' ->
  counted corpus p0 k w -> counted corpus p0 (n + k) w'.
Proof.
  revert a k w. induction n as [|n IH]; intros a k w E Hw.
  - simpl in E. injection E as <-. exact Hw.
  - cbn [seq for_each] in E. apply bind_Ok in E.
    destruct E as [w1 [E1 E]].
    rewrite Nat.add_succ_l, <- Nat.add_succ_r.
    exact (IH _ _ _ E (sample_step_counted _ _ _ _ _ _ _ E1 Hw)).
Qed.

(** A table the sampler returns is the table of the counters, each
    divided by [n]. *)
Lemma sample_pagerank_counted (corpus : Graph) (d : Qc) (n : Z) (start : nat)
      (draws : nat -> Qc) (ranks : RankTable) :
  sample_pagerank corpus d n start draws = Ok ranks ->
  exists p0 w,
    random_choice (dict_keys corpus) start = Ok p0
    /\ random_walk corpus d (Z.to_nat n) start draws = Ok w
    /\ counted corpus p0 (Z.to_nat n) w
    /\ ranks = map (fun kv => (fst kv, snd kv / Z2Qc n)) (pageRanks w).
Proof.
  intros H. unfold sample_pagerank in H. apply bind_Ok in H.
  destruct H as [w [Hw Hn]].
  pose proof Hw as Hwalk. unfold random_walk in Hw. apply bind_Ok in Hw.
  destruct Hw as [p0 [Hp0 Hw]].
  apply (walk_counted corpus d draws p0 (Z.to_nat n) 0 0) in Hw.
  - rewrite Nat.add_0_r in Hw. exists p0, w.
    split; [exact Hp0|]. split; [exact Hwalk|]. split; [exact Hw|].
    destruct Hw as [Hnd _]. rewrite (normalize_exact n _ Hnd) in Hn.
    congruence.
  - unfold counted. cbn [pageRanks page].
    split; [constructor|]. split; [reflexivity|].
    split; [intros key c []|]. split; [reflexivity | intros Hk; lia].
Qed.

(** ** [iterate_pagerank]: the preprocessing *)

Lemma rewritten_keys (g : Graph) : dict_keys (rewritten g) = dict_keys g.
Proof. unfold rewritten, dict_keys. rewrite map_map. reflexivity. Qed.

Lemma rewritten_length (g : Graph) :
  List.length (rewritten g) = List.length g.
Proof. unfold rewritten. apply length_map. Qed.

Lemma rewritten_get (g : Graph) (p : string) :
  dict_get p (rewritten g)
  = option_map (fun links => if is_empty_set links then dict_keys g else links)
               (dict_get p g).
Proof.
  unfold rewritten.
  exact (dict_get_map_values
           (fun _ links => if is_empty_set links then dict_keys g else links)
           g p).
Qed.

Lemma rewritten_valid (g : Graph) :
  valid_graph g = true -> valid_graph (rewritten g) = true.
Proof.
  intros Hv. pose proof (valid_graph_keys _ Hv) as Hk.
  unfold valid_graph. rewrite rewritten_keys.
  apply andb_true_iff. split; [now apply nodupb_NoDup|].
  apply forallb_forall. intros [p links] Hin.
  unfold rewritten in Hin. apply in_map_iff in Hin.
  destruct Hin as [[p' links'] [E Hin]]. simpl in E. injection E as <- <-.
  simpl. apply andb_true_iff.
  destruct (is_empty_set links').
  - split; [now apply nodupb_NoDup | apply subsetb_incl, incl_refl].
  - destruct (valid_graph_links g p' links' Hv
                (In_dict_get _ _ _ Hk Hin)) as [H1 H2].
    split; [now apply nodupb_NoDup | now apply subsetb_incl].
Qed.

(** The second loop, with [done] already visited and [todo] to come. *)
Lemma rewrite_sinks_aux (keys : list string) (todo done : Graph) :
  NoDup keys -> dict_keys (done ++ todo) = keys ->
  for_each (dict_keys todo)
    (fun corpus page =>
       links <- subscript page corpus ;;
       if is_empty_set links then
         links <- subscript page corpus ;;
         Ok (dict_set page (set_update links (to_set (dict_keys corpus)))
                      corpus)
       else Ok corpus)
    (done ++ todo)
  = Ok (done
        ++ map (fun kv =>
                  (fst kv, if is_empty_set (snd kv) then keys else snd kv))
               todo).
Proof.
  intros Hnd. revert done.
  induction todo as [|[k links] todo IH]; intros done Hkeys.
  - reflexivity.
  - assert (Hk : ~ In k (dict_keys done)).
    { rewrite <- Hkeys in Hnd. unfold dict_keys in *.
      rewrite map_app in Hnd. simpl in Hnd.
      intros Hin. apply NoDup_remove_2 in Hnd. apply Hnd, in_or_app.
      now left. }
    assert (Hget : forall l, dict_get k (done ++ (k, l) :: todo) = Some l).
    { intros l. rewrite (dict_get_app_r _ _ _ Hk). simpl.
      now rewrite String.eqb_refl. }
    assert (Hset : forall l l' : pyset,
               dict_set k l' (done ++ (k, l) :: todo)
               = (done ++ [(k, l')]) ++ todo).
    { intros l l'. rewrite (dict_set_app_r _ _ _ _ Hk). simpl.
      rewrite String.eqb_refl, <- app_assoc. reflexivity. }
    cbn [dict_keys map fst for_each]. fold (dict_keys todo).
    rewrite (subscript_Ok _ _ _ (Hget links)). cbn [bind].
    destruct links as [|l ls]; cbn [is_empty_set snd].
    + cbn [bind]. rewrite Hkeys, Hset. fold (to_set (to_set keys)).
      rewrite (to_set_NoDup keys Hnd), (to_set_NoDup keys Hnd).
      rewrite IH.
      * rewrite <- app_assoc. reflexivity.
      * etransitivity; [|exact Hkeys]. unfold dict_keys.
        rewrite !map_app, <- app_assoc. reflexivity.
    + assert (Happ : done ++ (k, l :: ls) :: todo
                     = (done ++ [(k, l :: ls)]) ++ todo)
        by (rewrite <- app_assoc; reflexivity).
      cbn [bind]. rewrite Happ at 1. rewrite IH.
      * rewrite <- app_assoc. reflexivity.
      * rewrite <- Happ. exact Hkeys.
Qed.

Lemma rewrite_sinks_exact (g : Graph) :
  NoDup (dict_keys g) -> rewrite_sinks g = Ok (rewritten g).
Proof.
  intros H. exact (rewrite_sinks_aux (dict_keys g) g [] H eq_refl).
Qed.

Lemma empty_links_to_exact (g : Graph) :
  NoDup (dict_keys g) ->
  empty_links_to g = map (fun p => (p, [])) (dict_keys g).
Proof.
  intros H. unfold empty_links_to.
  now rewrite (dict_fill (fun _ => @nil string)).
Qed.

Lemma filter_snoc {A : Type} (f : A -> bool) (l : list A) (x : A) :
  filter f (l ++ [x]) = filter f l ++ (if f x then [x] else []).
Proof. rewrite filter_app. reflexivity. Qed.

Lemma outlinks_get (g : Graph) (q : string) (links : pyset) :
  dict_get q g = Some links -> outlinks g q = links.
Proof.
  intros H. unfold outlinks, dict_get_default, Graph, pyset in *.
  now rewrite H.
Qed.

(** The inner loop of the reverse index for the page [q]: every page that
    [q] links to gets [q] as one more source.  The [else] branch is never
    taken. *)
Lemma index_inner
      (else_branch : dict pyset -> string -> string -> result (dict pyset))
      (q : string) (F : string -> list string) (links : pyset)
      (keys : list string) :
  NoDup keys -> NoDup links -> incl links keys ->
  (forall p, ~ In q (F p)) ->
  for_each links
    (fun links_to link =>
       if dict_mem link links_to then
         s <- subscript link links_to ;;
         Ok (dict_set link (set_add q s) links_to)
       else else_branch links_to link q)
    (map (fun p => (p, F p)) keys)
  = Ok (map (fun p => (p, F p ++ if set_mem p links then [q] else [])) keys).
Proof.
  intros Hk Hl Hin Hq.
  etransitivity.
  - apply (pointwise_update (set_add q)) with (f := F) (seen := []);
      try assumption.
    intros m link v E. unfold dict_mem, subscript. rewrite E. reflexivity.
  - f_equal. apply map_ext. intros p. f_equal. simpl.
    destruct (set_mem p links).
    + apply set_add_new, Hq.
    + now rewrite app_nil_r.
Qed.

(** The third loop with the pages [pre] visited and [post] to come. *)
Lemma index_links_exact
      (else_branch : dict pyset -> string -> string -> result (dict pyset))
      (g : Graph) (post pre : list string) :
  valid_graph g = true -> dict_keys g = pre ++ post ->
  for_each post (index_links_with else_branch g)
    (map (fun k => (k, 1 / num (List.length g))) pre,
     map (fun p => (p, filter (fun q => set_mem p (outlinks g q)) pre))
         (dict_keys g))
  = Ok (map (fun k => (k, 1 / num (List.length g))) (dict_keys g),
        map (fun p => (p, reference_links_to g p)) (dict_keys g)).
Proof.
  intros Hv. pose proof (valid_graph_keys _ Hv) as Hk.
  revert pre. induction post as [|q post IH]; intros pre Hkeys.
  - rewrite app_nil_r in Hkeys. subst pre. reflexivity.
  - assert (Hq : In q (dict_keys g)).
    { rewrite Hkeys. apply in_or_app. right. now left. }
    assert (Hpre : ~ In q pre).
    { rewrite Hkeys in Hk. apply NoDup_remove_2 in Hk.
      intros H. apply Hk, in_or_app. now left. }
    destruct (dict_get_Some_of_key _ _ Hq) as [links Hl].
    destruct (valid_graph_links _ _ _ Hv Hl) as [Hnd Hincl].
    cbn [for_each]. unfold index_links_with at 1. cbn [fst snd].
    rewrite (subscript_Ok _ _ _ Hl). cbn [bind].
    rewrite (index_inner else_branch q
               (fun p => filter (fun q => set_mem p (outlinks g q)) pre)
               links (dict_keys g) Hk Hnd Hincl).
    2:{ intros p H. apply filter_In in H. tauto. }
    cbn [bind].
    rewrite dict_set_new by (now rewrite dict_keys_map_key).
    specialize (IH (pre ++ [q])).
    rewrite map_app in IH. cbn [map] in IH.
    rewrite <- IH by (rewrite <- app_assoc; exact Hkeys).
    f_equal. f_equal. apply map_ext. intros p. f_equal.
    rewrite filter_snoc, (outlinks_get _ _ _ Hl). reflexivity.
Qed.

Lemma preprocess_exact
      (else_branch : dict pyset -> string -> string -> result (dict pyset))
      (g : Graph) :
  valid_graph g = true ->
  preprocess_with else_branch g
  = Ok (rewritten g,
        (map (fun k => (k, 1 / num (List.length g))) (dict_keys g),
         map (fun p => (p, reference_links_to (rewritten g) p)) (dict_keys g))).
Proof.
  intros Hv. pose proof (valid_graph_keys _ Hv) as Hk.
  unfold preprocess_with. cbv zeta.
  rewrite (rewrite_sinks_exact g Hk). cbn [bind].
  rewrite (empty_links_to_exact g Hk).
  pose proof (index_links_exact else_branch (rewritten g)
                (dict_keys (rewritten g)) [] (rewritten_valid g Hv) eq_refl)
    as E.
  rewrite rewritten_keys, rewritten_length in E. cbn [map filter] in E.
  rewrite rewritten_keys.
  exact (f_equal (fun r => bind r (fun st => Ok (rewritten g, st))) E).
Qed.

(** ** [iterate_pagerank]: one pass *)

Lemma dict_set_set {V : Type} (k : string) (v v' : V) (d : dict V) :
  dict_set k v' (dict_set k v d) = dict_set k v' d.
Proof.
  induction d as [|[k0 v0] d IH]; simpl.
  - now rewrite String.eqb_refl.
  - destruct (String.eqb_spec k k0) as [->|Hne]; simpl.
    + now rewrite String.eqb_refl.
    + apply String.eqb_neq in Hne. rewrite Hne. now rewrite IH.
Qed.

Lemma rank_of_get (table : dict Qc) (q : string) :
  In q (dict_keys table) -> dict_get q table = Some (rank_of table q).
Proof.
  intros H. destruct (dict_get_Some_of_key _ _ H) as [v E].
  unfold rank_of, dict_get_default. now rewrite E.
Qed.

Lemma rank_of_set_neq (table : dict Qc) (p q : string) (v : Qc) :
  p <> q -> rank_of (dict_set p v table) q = rank_of table q.
Proof.
  intros H. unfold rank_of, dict_get_default.
  now rewrite dict_get_set_neq.
Qed.

Lemma outlinks_of_key (g : Graph) (q : string) :
  In q (dict_keys g) -> dict_get q g = Some (outlinks g q).
Proof.
  intros H. destruct (dict_get_Some_of_key _ _ H) as [v E].
  now rewrite (outlinks_get _ _ _ E).
Qed.

Lemma computed_rank_ext (g : Graph) (d : Qc) (f f' : string -> Qc)
      (p : string) (sources : list string) :
  (forall q, In q sources -> q <> p -> f q = f' q) ->
  computed_rank g d f p sources = computed_rank g d f' p sources.
Proof.
  unfold computed_rank. generalize ((1 - d) / num (List.length g)).
  induction sources as [|q sources IH]; intros acc H; simpl; [reflexivity|].
  destruct (String.eqb_spec q p) as [->|Hne].
  - apply IH. intros q' Hq'. apply H. now right.
  - rewrite (H q (or_introl eq_refl) Hne). apply IH.
    intros q' Hq'. apply H. now right.
Qed.

(** Without a source that is the page itself the running sum is the sum of
    the reference recurrence. *)
Lemma computed_rank_sum (g : Graph) (d : Qc) (f : string -> Qc)
      (p : string) (sources : list string) :
  ~ In p sources ->
  computed_rank g d f p sources
  = (1 - d) / num (List.length g)
    + d * fold_right Qcplus 0
            (map (fun q => f q / num (List.length (outlinks g q))) sources).
Proof.
  unfold computed_rank. generalize ((1 - d) / num (List.length g)).
  induction sources as [|q sources IH]; intros acc H; simpl.
  - ring.
  - destruct (String.eqb_spec q p) as [->|Hne]; [simpl in H; tauto|].
    rewrite IH by (simpl in H; tauto). ring.
Qed.

Lemma NoDup_app_disjoint (l1 l2 : list string) (a : string) :
  NoDup (l1 ++ l2) -> In a l1 -> ~ In a l2.
Proof.
  induction l1 as [|b l1 IH]; simpl; [tauto|].
  intros Hnd [->|Ha] H2; inversion Hnd; subst.
  - apply H1, in_or_app. now right.
  - now apply IH.
Qed.

Section RankPass.
Variables (g : Graph) (links_to : dict pyset) (d : Qc).
Variable src : string -> list string.
Hypothesis links_to_src :
  forall p, In p (dict_keys g) ->
            dict_get p links_to = Some (src p) /\ incl (src p) (dict_keys g).

(** The inner loop [for link in links_to[page]] started with the running
    sum [acc]. *)
Lemma inner_sum (p : string) (pr0 : dict Qc) (srcs : list string) (acc : Qc) :
  dict_keys pr0 = dict_keys g -> incl srcs (dict_keys g) ->
  for_each srcs
    (fun pageRank link =>
       acc <- subscript p pageRank ;;
       r <- subscript link pageRank ;;
       out <- subscript link g ;;
       Ok (dict_set p (acc + d * (r / num (List.length out))) pageRank))
    (dict_set p acc pr0)
  = Ok (dict_set p
          (fold_left
             (fun acc q =>
                acc + d * ((if String.eqb q p then acc else rank_of pr0 q)
                           / num (List.length (outlinks g q))))
             srcs acc)
          pr0).
Proof.
  intros Hkeys. revert acc.
  induction srcs as [|q srcs IH]; intros acc Hin; [reflexivity|].
  assert (Hq : In q (dict_keys g)) by (apply Hin; now left).
  cbn [for_each fold_left].
  rewrite (subscript_Ok p _ acc) by apply dict_get_set_eq. cbn [bind].
  rewrite (subscript_Ok q _ (if String.eqb q p then acc else rank_of pr0 q)).
  2:{ destruct (String.eqb_spec q p) as [->|Hne].
      - apply dict_get_set_eq.
      - rewrite dict_get_set_neq by congruence.
        apply rank_of_get. now rewrite Hkeys. }
  cbn [bind].
  rewrite (subscript_Ok q g _ (outlinks_of_key g q Hq)). cbn [bind].
  rewrite dict_set_set. apply IH.
  intros a Ha. apply Hin. now right.
Qed.

(** The body of the pass for the page [p]. *)
Lemma update_rank_exact (lastrank pr : dict Qc) (m : Qc) (p : string) :
  In p (dict_keys g) ->
  dict_keys pr = dict_keys g -> dict_keys lastrank = dict_keys g ->
  exists m',
    update_rank g links_to d lastrank (pr, m) p
    = Ok (dict_set p (computed_rank g d (rank_of pr) p (src p)) pr, m').
Proof.
  intros Hp Hpr Hlast.
  destruct (links_to_src p Hp) as [Hsrc Hincl].
  unfold update_rank. cbn [fst snd].
  rewrite (subscript_Ok _ _ _ Hsrc). cbn [bind].
  rewrite (inner_sum p pr (src p) _ Hpr Hincl). cbn [bind].
  fold (computed_rank g d (rank_of pr) p (src p)).
  rewrite (subscript_Ok p _ _ (dict_get_set_eq p _ pr)). cbn [bind].
  rewrite (subscript_Ok p lastrank (rank_of lastrank p))
    by (apply rank_of_get; now rewrite Hlast).
  cbn [bind].
  destruct (Qcgtb _ m); eexists; reflexivity.
Qed.

(** The pass, with the pages [pre] visited and [post] to come.  A visited
    page keeps its value to the end of the pass; the value of a page is
    computed from the table as it stands when the page is reached. *)
Lemma pass_exact (lastrank : dict Qc) (post pre : list string)
      (cur : dict Qc) (m : Qc) :
  NoDup (dict_keys g) -> dict_keys g = pre ++ post ->
  dict_keys cur = dict_keys g -> dict_keys lastrank = dict_keys g ->
  exists fin m',
    for_each post (update_rank g links_to d lastrank) (cur, m) = Ok (fin, m')
    /\ dict_keys fin = dict_keys g
    /\ (forall q, ~ In q post -> dict_get q fin = dict_get q cur)
    /\ (forall pre2 p post2,
           post = pre2 ++ p :: post2 ->
           dict_get p fin
           = Some (computed_rank g d
                     (fun q => if set_mem q (pre ++ pre2)
                               then rank_of fin q else rank_of cur q)
                     p (src p))).
Proof.
  intros Hnd. revert pre cur m.
  induction post as [|p post IH]; intros pre cur m Hkeys Hcur Hlast.
  - exists cur, m. repeat split; auto.
    intros pre2 p post2 H. destruct pre2; discriminate.
  - assert (Hp : In p (dict_keys g)).
    { rewrite Hkeys. apply in_or_app. right. now left. }
    assert (Hnd' : NoDup (pre ++ p :: post)) by (now rewrite <- Hkeys).
    assert (Hp_pre : ~ In p pre).
    { intros H. apply NoDup_remove_2 in Hnd'. apply Hnd', in_or_app.
      now left. }
    assert (Hp_post : ~ In p post).
    { intros H. apply NoDup_remove_2 in Hnd'. apply Hnd', in_or_app.
      now right. }
    destruct (update_rank_exact lastrank cur m p Hp Hcur Hlast) as [m1 E1].
    set (v := computed_rank g d (rank_of cur) p (src p)) in *.
    assert (Hcur1 : dict_keys (dict_set p v cur) = dict_keys g).
    { rewrite dict_keys_set_old; [assumption | now rewrite Hcur]. }
    destruct (IH (pre ++ [p]) (dict_set p v cur) m1) as [fin [m' [E [Hk [Hold Hnew]]]]];
      [rewrite <- app_assoc; exact Hkeys | exact Hcur1 | exact Hlast |].
    exists fin, m'. cbn [for_each]. rewrite E1. cbn [bind].
    split; [exact E|]. split; [exact Hk|]. split.
    + intros q Hq. rewrite Hold by (simpl in Hq; tauto).
      apply dict_get_set_neq. simpl in Hq. tauto.
    + intros pre2 p' post2 Hsplit.
      destruct pre2 as [|x pre2]; simpl in Hsplit.
      * injection Hsplit as <- <-.
        rewrite (Hold p Hp_post), dict_get_set_eq. f_equal. subst v.
        apply computed_rank_ext. intros q Hq Hne.
        rewrite app_nil_r. destruct (set_mem q pre) eqn:Hmem; [|reflexivity].
        apply set_mem_In in Hmem. unfold rank_of, dict_get_default.
        rewrite Hold.
        -- now rewrite dict_get_set_neq by congruence.
        -- intros H. apply (NoDup_app_disjoint _ _ _ Hnd' Hmem). now right.
      * injection Hsplit as <- Hpost.
        rewrite (Hnew pre2 p' post2 Hpost). f_equal.
        apply computed_rank_ext. intros q Hq Hne.
        rewrite <- app_assoc. cbn [app].
        destruct (set_mem q (pre ++ p :: pre2)) eqn:Hmem; [reflexivity|].
        apply rank_of_set_neq. intros ->.
        apply set_mem_false in Hmem. apply Hmem, in_or_app. right. now left.
Qed.
End RankPass.

(** The reverse index the preprocessing builds for the graph [g]. *)
Lemma reference_index_src (g : Graph) (p : string) :
  In p (dict_keys g) ->
  dict_get p (map (fun p => (p, reference_links_to g p)) (dict_keys g))
  = Some (reference_links_to g p)
  /\ incl (reference_links_to g p) (dict_keys g).
Proof.
  intros Hp. split.
  - now apply (dict_get_map_key (reference_links_to g)).
  - intros q Hq. unfold reference_links_to in Hq.
    apply filter_In in Hq. tauto.
Qed.

Lemma rank_pass_exact (g : Graph) (d : Qc) (pr : dict Qc) :
  NoDup (dict_keys g) -> dict_keys pr = dict_keys g ->
  exists fin m,
    rank_pass g (map (fun p => (p, reference_links_to g p)) (dict_keys g)) d pr
    = Ok (fin, m)
    /\ dict_keys fin = dict_keys g
    /\ (forall pre p post,
           dict_keys g = pre ++ p :: post ->
           dict_get p fin
           = Some (computed_rank g d
                     (fun q => if set_mem q pre
                               then rank_of fin q else rank_of pr q)
                     p (reference_links_to g p))).
Proof.
  intros Hnd Hpr. unfold rank_pass. rewrite Hpr.
  destruct (pass_exact g _ d (reference_links_to g) (reference_index_src g)
              pr (dict_keys g) [] pr 0 Hnd eq_refl Hpr Hpr)
    as [fin [m [E [Hk [_ Hnew]]]]].
  exists fin, m. split; [exact E|]. split; [exact Hk|].
  intros pre p post Hsplit. exact (Hnew pre p post Hsplit).
Qed.

(** ** [iterate_pagerank]: the [while] loop *)

Lemma pass_state_runs (g : Graph) (d : Qc) (k : nat) (st : dict Qc * Qc) :
  NoDup (dict_keys g) -> dict_keys (fst st) = dict_keys g ->
  exists st',
    pass_state g (map (fun p => (p, reference_links_to g p)) (dict_keys g))
               d k st = Ok st'
    /\ dict_keys (fst st') = dict_keys g.
Proof.
  intros Hnd. revert st. induction k as [|k IH]; intros st Hst; simpl.
  - eauto.
  - destruct (rank_pass_exact g d (fst st) Hnd Hst) as [fin [m [-> [Hk _]]]].
    simpl. apply IH. exact Hk.
Qed.

Lemma while_loop_runs (g : Graph) (d : Qc) (fuel : nat) (pr : dict Qc)
      (m : Qc) :
  NoDup (dict_keys g) -> dict_keys pr = dict_keys g ->
  exists r,
    while_loop fuel g (map (fun p => (p, reference_links_to g p)) (dict_keys g))
               d pr m = Ok r.
Proof.
  intros Hnd. revert pr m. induction fuel as [|fuel IH]; intros pr m Hpr; simpl.
  - destruct (Qcgtb m tolerance); eauto.
  - destruct (Qcgtb m tolerance); [|eauto].
    destruct (rank_pass_exact g d pr Hnd Hpr) as [fin [m' [-> [Hk _]]]].
    simpl. apply IH. exact Hk.
Qed.

(** On a well-formed graph [iterate_pagerank] raises nothing, and the
    caller's graph is left with its sinks rewritten. *)
Lemma iterate_pagerank_runs (fuel : nat) (corpus : Graph) (d : Qc) :
  valid_graph corpus = true ->
  exists r, iterate_pagerank fuel corpus d = Ok (rewritten corpus, r).
Proof.
  intros Hv. unfold iterate_pagerank, preprocess.
  rewrite (preprocess_exact _ corpus Hv). cbn [bind fst snd].
  pose proof (valid_graph_keys _ (rewritten_valid _ Hv)) as Hnd.
  destruct (while_loop_runs (rewritten corpus) d fuel
              (map (fun k => (k, 1 / num (List.length corpus)))
                   (dict_keys corpus)) 1 Hnd) as [r E].
  - rewrite rewritten_keys. apply dict_keys_map_key.
  - rewrite rewritten_keys in E. rewrite E. simpl. eauto.
Qed.


(** The loop returns the table of its first turn whose maximal difference
    is not above the tolerance. *)
Lemma while_loop_first (g : Graph) (lt : dict pyset) (d : Qc)
      (fuel : nat) (pr : dict Qc) (m : Qc) (t : RankTable) :
  while_loop fuel g lt d pr m = Ok (Some t)
  <-> exists k,
      (k <= fuel)%nat
      /\ (exists m', pass_state g lt d k (pr, m) = Ok (t, m')
                     /\ Qcgtb m' tolerance = false)
      /\ (forall i, (i < k)%nat ->
                    exists s, pass_state g lt d i (pr, m) = Ok s
                              /\ Qcgtb (snd s) tolerance = true).
Proof.
  revert pr m. induction fuel as [|fuel IH]; intros pr m.
  - simpl. split.
    + destruct (Qcgtb m tolerance) eqn:E; [discriminate|].
      intros [= <-]. exists 0%nat. split; [lia|]. split.
      * exists m. auto.
      * intros i Hi. lia.
    + intros [k [Hk [[m' [Hs Hm']] _]]].
      assert (k = 0)%nat by lia. subst k. simpl in Hs.
      injection Hs as <- <-. now rewrite Hm'.
  - cbn [while_loop]. split.
    + destruct (Qcgtb m tolerance) eqn:E.
      * destruct (rank_pass g lt d pr) as [[pr1 m1]|e] eqn:Ep; [|discriminate].
        cbn [bind fst snd]. intros H. apply IH in H.
        destruct H as [k [Hk [[m' [Hs Hm']] Hlt]]].
        exists (S k). split; [lia|]. split.
        -- exists m'. cbn [pass_state fst]. rewrite Ep. cbn [bind]. auto.
        -- intros [|i] Hi.
           ++ exists (pr, m). auto.
           ++ cbn [pass_state fst]. rewrite Ep. cbn [bind].
              apply Hlt. lia.
      * intros [= <-]. exists 0%nat. split; [lia|]. split.
        -- exists m. auto.
        -- intros i Hi. lia.
    + intros [k [Hk [[m' [Hs Hm']] Hlt]]].
      destruct k as [|k].
      * simpl in Hs. injection Hs as <- <-. now rewrite Hm'.
      * destruct (Hlt 0%nat) as [s [Hs0 Hgt]]; [lia|].
        simpl in Hs0. injection Hs0 as <-. simpl in Hgt. rewrite Hgt.
        cbn [pass_state fst] in Hs.
        destruct (rank_pass g lt d pr) as [[pr1 m1]|e] eqn:Ep; [|discriminate].
        cbn [bind fst snd] in *. apply IH.
        exists k. split; [lia|]. split; [eauto|].
        intros i Hi. destruct (Hlt (S i)) as [s [Hs' Hgt']]; [lia|].
        cbn [pass_state fst] in Hs'. rewrite Ep in Hs'. eauto.
Qed.

(** ** Concrete runs *)








Lemma sink_pair_preprocess :
  preprocess sink_pair
  = Ok (sink_pair_rewritten, (sink_pair_t0, sink_pair_rewritten)).
Proof.
  unfold preprocess. rewrite preprocess_exact by reflexivity. reflexivity.
Qed.

(** The run on [sink_pair]: eleven turns, then a table with [A] below [B]. *)
Lemma sink_pair_run :
  exists t,
    iterate_pagerank 11 sink_pair damping_085
    = Ok (sink_pair_rewritten, Some t)
    /\ A_below_B (Some t) = true.
Proof.
  assert (Hc : A_below_B
                 (returned (while_loop 11 sink_pair_rewritten
                              sink_pair_rewritten damping_085
                              sink_pair_t0 1)) = true)
    by (vm_compute; reflexivity).
  unfold iterate_pagerank. rewrite sink_pair_preprocess. cbn [bind fst snd].
  destruct (while_loop 11 sink_pair_rewritten sink_pair_rewritten
              damping_085 sink_pair_t0 1) as [[t|]|e];
    try discriminate.
  exists t. split; [reflexivity | exact Hc].
Qed.




(** * The properties of the ranking engine *)

(** ** TransitionModel *)

(** C3.  For a well-formed graph, a node of the graph and a damping factor
    in [0, 1], [transition_model] returns a table with one entry per node
    of the graph, in the order of the graph, and the entry of each node is
    the reference distribution: with at least one outlink,
    [(1 - damping) / |graph|], plus [damping / |outlinks(node)|] for a node
    linked from the current one; with no outlink, [1 / |graph|]. *)
Theorem transition_model_reference (graph : Graph) (node : string)
        (damping : Qc) :
  valid_graph graph = true -> In node (dict_keys graph) ->
  0 <= damping <= 1 ->
  exists model,
    transition_model graph node damping = Ok model
    /\ dict_keys model = dict_keys graph
    /\ forall key, In key (dict_keys graph) ->
                   dict_get key model
                   = Some (reference_distribution graph node damping key).
Proof.
  intros Hv Hnode _.
  pose proof (valid_graph_keys _ Hv) as Hk.
  destruct (dict_get_Some_of_key _ _ Hnode) as [links Hl].
  destruct (valid_graph_links _ _ _ Hv Hl) as [Hnd Hincl].
  eexists. split; [exact (transition_model_exact _ _ _ _ Hk Hl Hnd Hincl)|].
  split.
  - apply dict_keys_map_key.
  - intros key Hkey.
    exact (dict_get_map_key (reference_distribution graph node damping)
                            (dict_keys graph) key Hkey).
Qed.

Lemma transition_model_reference_witness :
  exists model,
    transition_model triangle "A" damping_085 = Ok model
    /\ dict_keys model = dict_keys triangle
    /\ forall key, In key (dict_keys triangle) ->
                   dict_get key model
                   = Some (reference_distribution triangle "A" damping_085 key).
Proof.
  apply transition_model_reference.
  - reflexivity.
  - simpl. auto.
  - split; vm_compute; discriminate.
Defined.

(** C7, as amended.  For a well-formed graph, a damping factor in [0, 1]
    and a node with at least one outlink, [transition_model] gives every
    node of the graph at least [(1 - damping) / |graph|], and it gives
    every node linked from the current one
    [(1 - damping) / |graph| + damping / |outlinks(node)|]: the floor and
    an extra that is not negative, and that is nothing at damping 0. *)
Theorem transition_model_floor (graph : Graph) (node : string)
        (links : pyset) (damping : Qc) :
  valid_graph graph = true -> dict_get node graph = Some links ->
  links <> [] -> 0 <= damping <= 1 ->
  exists model,
    transition_model graph node damping = Ok model
    /\ (forall key, In key (dict_keys graph) ->
                    exists p, dict_get key model = Some p
                              /\ (1 - damping) / num (List.length graph) <= p)
    /\ (forall key, In key links ->
                    dict_get key model
                    = Some ((1 - damping) / num (List.length graph)
                            + damping / num (List.length links))
                    /\ 0 <= damping / num (List.length links)).
Proof.
  intros Hv Hl Hne [Hd0 _].
  pose proof (valid_graph_keys _ Hv) as Hk.
  destruct (valid_graph_links _ _ _ Hv Hl) as [Hnd Hincl].
  assert (HL : 0 < num (List.length links)).
  { apply num_pos. destruct links; [congruence | simpl; lia]. }
  assert (Hget : forall key, In key (dict_keys graph) ->
                 dict_get key
                   (map (fun key =>
                           (key, reference_distribution graph node damping key))
                        (dict_keys graph))
                 = Some (if set_mem key links
                         then (1 - damping) / num (List.length graph)
                              + damping / num (List.length links)
                         else (1 - damping) / num (List.length graph))).
  { intros key Hkey.
    rewrite (dict_get_map_key (reference_distribution graph node damping))
      by assumption.
    unfold reference_distribution. rewrite Hl.
    destruct links; [congruence | reflexivity]. }
  eexists. split; [exact (transition_model_exact _ _ _ _ Hk Hl Hnd Hincl)|].
  split.
  - intros key Hkey. eexists. split; [exact (Hget key Hkey)|].
    destruct (set_mem key links).
    + apply Qcplus_le_r, Qcdiv_nonneg; assumption.
    + apply Qcle_refl.
  - intros key Hkey. split; [|apply Qcdiv_nonneg; assumption].
    rewrite (Hget key (Hincl _ Hkey)).
    apply set_mem_In in Hkey. now rewrite Hkey.
Qed.

Lemma transition_model_floor_witness :
  exists model,
    transition_model triangle "A" damping_085 = Ok model
    /\ (forall key, In key (dict_keys triangle) ->
                    exists p, dict_get key model = Some p
                              /\ (1 - damping_085) / num (List.length triangle)
                                 <= p)
    /\ (forall key, In key ["B"; "C"] ->
                    dict_get key model
                    = Some ((1 - damping_085) / num (List.length triangle)
                            + damping_085 / num (List.length ["B"; "C"]))
                    /\ 0 <= damping_085 / num (List.length ["B"; "C"])).
Proof.
  apply transition_model_floor.
  - reflexivity.
  - reflexivity.
  - discriminate.
  - split; vm_compute; discriminate.
Defined.

(** C7, as stated, fails at damping 0: [B] is linked from [A] in
    [triangle], and its probability is the floor itself. *)
Lemma linked_node_at_floor :
  exists model p,
    transition_model triangle "A" 0 = Ok model
    /\ set_mem "B" (outlinks triangle "A") = true
    /\ dict_get "B" model = Some p
    /\ ~ (1 - 0) / num (List.length triangle) < p.
Proof.
  eexists. eexists. split; [vm_compute; reflexivity|].
  split; [reflexivity|]. split; [reflexivity|].
  vm_compute. discriminate.
Qed.

(** As the program computes, in binary64, the extra of a linked node is
    lost to rounding for a small positive damping factor as well: with
    damping [1e-17] the node [B], linked from [A] in [triangle], sits at
    the floor.  So "strictly more" holds for no range of positive damping
    factors, and the amended claim does not state it. *)
Lemma linked_node_at_floor_binary64 :
  PrimFloat.ltb (Binary64.of_nat 0) Binary64.damping_1e_17 = true
  /\ exists model p,
      Binary64.transition_model triangle "A" Binary64.damping_1e_17
      = Ok model
      /\ dict_get "B" model = Some p
      /\ PrimFloat.ltb (Binary64.floor Binary64.damping_1e_17
                                       (List.length triangle)) p
         = false.
Proof.
  split; [vm_compute; reflexivity|].
  eexists. eexists. split; [vm_compute; reflexivity|].
  split; [reflexivity|]. vm_compute. reflexivity.
Qed.

(** ** SamplingEstimator *)

(** The exact sampler.  In exact arithmetic, for a well-formed,
    non-empty graph and draws in [0, 1): after any number of turns the
    walk stands on a node of the graph; the probabilities of the model
    computed there add up to 1, and the cumulative loop of the next turn
    breaks at a node of the graph.  The program adds rounded numbers, and
    their total can stay below a draw, as the next theorem shows. *)
Lemma exact_draw_selects (corpus : Graph) (damping : Qc) (turns : nat)
      (start : nat) (draws : nat -> Qc) :
  valid_graph corpus = true -> corpus <> [] ->
  (forall i, unit_draw (draws i)) ->
  exists w here,
    random_walk corpus damping turns start draws = Ok w
    /\ page w = Some here /\ In here (dict_keys corpus)
    /\ exists model next,
        transition_model corpus here damping = Ok model
        /\ sum_values model = 1
        /\ draw model (draws turns) 0 (nextpage w) = Some next
        /\ In next (dict_keys corpus).
Proof.
  intros Hv Hne Hd.
  destruct (random_walk_runs corpus damping turns start draws Hv Hne Hd)
    as [w [E [[here [Hpage Hin]] _]]].
  exists w, here. repeat split; try assumption.
  destruct (dict_get_Some_of_key _ _ Hin) as [links Hl].
  destruct (transition_model_keys corpus here damping links Hv Hl)
    as [model [Hm [Hkeys Hone]]].
  destruct (Hd turns) as [H0 H1].
  destruct (draw_selects model (draws turns) 0 (nextpage w)) as [next [Hn Hk]].
  - exact H0.
  - now rewrite Hone, Qcplus_0_l.
  - exists model, next. rewrite <- Hkeys. auto.
Qed.

(** C9.  The program breaks the claim.  On the well-formed graph
    [{p0: {p1}, p1: {}, p2: {}}] with damping 0.5, started at [p0] with
    the draw [1 - 2^-53] (a float of [0, 1)): the entries of the model are
    the floats next to 1/6, 2/3 and 1/6, their running total ends at
    [1 - 2^-53], which is not greater than the draw, so the cumulative
    loop ends without a [break]; [nextpage] is still [None], the walk
    advances to [None], and with one more turn [corpus[None]] raises
    [KeyError]. *)
Theorem walk_reaches_None :
  valid_graph three_pages = true
  /\ Binary64.in_unit_interval Binary64.below_one = true
  /\ exists model counters,
      Binary64.transition_model three_pages "p0" Binary64.half = Ok model
      /\ Binary64.draw model Binary64.below_one (Binary64.of_nat 0) None
         = None
      /\ Binary64.random_walk three_pages Binary64.half 1 0
                              (fun _ => Binary64.below_one)
         = Ok {| Binary64.page := None;
                 Binary64.nextpage := None;
                 Binary64.pageRanks := counters |}
      /\ Binary64.sample_pagerank three_pages Binary64.half 2 0
                                  (fun _ => Binary64.below_one)
         = Raise KeyError.
Proof.
  split; [reflexivity|]. split; [vm_compute; reflexivity|].
  eexists. eexists. split; [vm_compute; reflexivity|].
  split; [vm_compute; reflexivity|].
  split; vm_compute; reflexivity.
Qed.

(** C6.  Whenever [sample_pagerank] returns, with [n >= 1], the counters
    of the walk add up to [n], the table is the table of the counters each
    divided by [n], and in exact arithmetic its values add up to 1.  This
    holds whatever the graph, the damping factor and the draws are, also
    for a walk whose last turn selected no page. *)
Theorem sample_pagerank_sums_to_1 (corpus : Graph) (damping : Qc) (n : Z)
        (start : nat) (draws : nat -> Qc) (ranks : RankTable) :
  (1 <= n)%Z ->
  sample_pagerank corpus damping n start draws = Ok ranks ->
  exists w,
    random_walk corpus damping (Z.to_nat n) start draws = Ok w
    /\ sum_values (pageRanks w) = Z2Qc n
    /\ ranks = map (fun kv => (fst kv, snd kv / Z2Qc n)) (pageRanks w)
    /\ sum_values ranks = 1.
Proof.
  intros Hn H.
  destruct (sample_pagerank_counted _ _ _ _ _ _ H)
    as [p0 [w [_ [E [[_ [Hsum _]] ->]]]]].
  assert (Hnum : Z2Qc n = num (Z.to_nat n)).
  { unfold num. rewrite Z2Nat.id by lia. reflexivity. }
  exists w. split; [exact E|]. split; [now rewrite Hnum|].
  split; [reflexivity|].
  rewrite sum_values_scale, Hsum, Hnum.
  assert (Hz : num (Z.to_nat n) <> 0) by (apply num_neq_0; lia).
  now field.
Qed.

Lemma sample_pagerank_sums_to_1_witness :
  exists w,
    random_walk sink_pair damping_085 (Z.to_nat 4) 0 half_draws = Ok w
    /\ sum_values (pageRanks w) = Z2Qc 4
    /\ value_of (sample_pagerank sink_pair damping_085 4 0 half_draws) []
       = map (fun kv => (fst kv, snd kv / Z2Qc 4)) (pageRanks w)
    /\ sum_values
         (value_of (sample_pagerank sink_pair damping_085 4 0 half_draws) [])
       = 1.
Proof.
  apply (sample_pagerank_sums_to_1 sink_pair damping_085 4 0 half_draws).
  - lia.
  - vm_compute. reflexivity.
Defined.

(** C5, as amended.  Neither estimator checks its arguments, and neither
    raises an InvalidGraph or InvalidParameter condition.  On the empty
    graph [sample_pagerank] raises the [IndexError] of [random.choice] and
    [iterate_pagerank] returns the empty table.  On a well-formed graph
    that is not empty, whatever the damping factor and the draws are,
    [sample_pagerank] returns the empty table when [n < 1], and
    [iterate_pagerank] raises nothing. *)
Theorem estimators_do_not_validate (corpus : Graph) (damping : Qc) (n : Z)
        (start : nat) (draws : nat -> Qc) (fuel : nat) :
  valid_graph corpus = true ->
  (corpus = [] ->
   sample_pagerank corpus damping n start draws = Raise IndexError
   /\ iterate_pagerank (S fuel) corpus damping = Ok ([], Some []))
  /\ (corpus <> [] -> (n < 1)%Z ->
      sample_pagerank corpus damping n start draws = Ok [])
  /\ exists r, iterate_pagerank fuel corpus damping = Ok (rewritten corpus, r).
Proof.
  intros Hv. split; [|split].
  - intros ->. split; [reflexivity | destruct fuel; reflexivity].
  - intros Hne Hn. assert (Hz : Z.to_nat n = 0%nat) by lia.
    unfold sample_pagerank, random_walk. rewrite Hz.
    destruct (random_choice_In (dict_keys corpus) start) as [p [-> _]].
    { destruct corpus; [congruence | discriminate]. }
    reflexivity.
  - apply iterate_pagerank_runs, Hv.
Qed.

Lemma estimators_do_not_validate_witness :
  (sink_pair = [] ->
   sample_pagerank sink_pair (Q2Qc 2) (-3) 0 half_draws = Raise IndexError
   /\ iterate_pagerank 4 sink_pair (Q2Qc 2) = Ok ([], Some []))
  /\ (sink_pair <> [] -> (-3 < 1)%Z ->
      sample_pagerank sink_pair (Q2Qc 2) (-3) 0 half_draws = Ok [])
  /\ exists r,
      iterate_pagerank 3 sink_pair (Q2Qc 2) = Ok (rewritten sink_pair, r).
Proof.
  apply (estimators_do_not_validate sink_pair (Q2Qc 2) (-3) 0 half_draws 3).
  reflexivity.
Defined.

(** C5, as stated, fails: the empty graph, a damping factor of 2 and a
    sample count of 0 are all accepted. *)
Lemma invalid_inputs_accepted :
  iterate_pagerank 1 [] damping_085 = Ok ([], Some [])
  /\ sample_pagerank [] damping_085 1 0 half_draws = Raise IndexError
  /\ sample_pagerank sink_pair damping_085 0 0 half_draws = Ok []
  /\ exists ranks,
      sample_pagerank sink_pair (Q2Qc 2) 2 0 half_draws = Ok ranks
      /\ dict_keys ranks = ["A"; "B"].
Proof.
  split; [reflexivity|]. split; [reflexivity|]. split; [reflexivity|].
  eexists. split; [vm_compute; reflexivity | reflexivity].
Qed.

(** ** IterativeSolver *)

Lemma pass_state_snoc (g : Graph) (lt : dict pyset) (d : Qc) (k : nat)
      (st : dict Qc * Qc) :
  pass_state g lt d (S k) st
  = (st' <- pass_state g lt d k st ;; rank_pass g lt d (fst st')).
Proof.
  revert st. induction k as [|k IH]; intros st.
  - simpl. destruct (rank_pass g lt d (fst st)); reflexivity.
  - change (pass_state g lt d (S (S k)) st)
      with (st' <- rank_pass g lt d (fst st) ;; pass_state g lt d (S k) st').
    cbn [pass_state]. destruct (rank_pass g lt d (fst st)) as [st1|e];
      cbn [bind]; [|reflexivity].
    apply IH.
Qed.

Lemma loop_state_unfold (corpus : Graph) (d : Qc) (k : nat) :
  valid_graph corpus = true ->
  loop_state corpus d k
  = pass_state (rewritten corpus)
      (map (fun p => (p, reference_links_to (rewritten corpus) p))
           (dict_keys (rewritten corpus)))
      d k
      (map (fun k => (k, 1 / num (List.length corpus))) (dict_keys corpus), 1).
Proof.
  intros Hv. unfold loop_state, preprocess.
  rewrite (preprocess_exact _ corpus Hv), rewritten_keys. reflexivity.
Qed.

(** C1, as amended.  For a well-formed graph [iterate_pagerank] leaves the
    keys of the caller's graph and the outlink set of every node that has
    an outlink as they were, and replaces, in the caller's graph, the
    outlink set of every sink by the set of all nodes.  The caller's graph
    is unchanged when it has no sink. *)
Theorem iterate_pagerank_rewrites_sinks (fuel : nat) (corpus : Graph)
        (damping : Qc) :
  valid_graph corpus = true ->
  exists after r,
    iterate_pagerank fuel corpus damping = Ok (after, r)
    /\ dict_keys after = dict_keys corpus
    /\ (forall node links,
           dict_get node corpus = Some links ->
           dict_get node after
           = Some (if is_empty_set links then dict_keys corpus else links))
    /\ ((forall node, dict_get node corpus <> Some []) -> after = corpus).
Proof.
  intros Hv. destruct (iterate_pagerank_runs fuel corpus damping Hv) as [r E].
  exists (rewritten corpus), r. split; [exact E|].
  split; [apply rewritten_keys|]. split.
  - intros node links Hl. rewrite rewritten_get, Hl. reflexivity.
  - intros Hns. unfold rewritten.
    transitivity (map (fun kv : string * pyset => kv) corpus);
      [|apply map_id].
    apply map_ext_in. intros [p links] Hin. simpl.
    destruct links as [|l ls]; [|reflexivity].
    exfalso. apply (Hns p).
    apply In_dict_get; [apply valid_graph_keys, Hv | exact Hin].
Qed.

Lemma iterate_pagerank_rewrites_sinks_witness :
  exists after r,
    iterate_pagerank 11 sink_pair damping_085 = Ok (after, r)
    /\ dict_keys after = dict_keys sink_pair
    /\ (forall node links,
           dict_get node sink_pair = Some links ->
           dict_get node after
           = Some (if is_empty_set links then dict_keys sink_pair else links))
    /\ ((forall node, dict_get node sink_pair <> Some []) -> after = sink_pair).
Proof.
  apply iterate_pagerank_rewrites_sinks. reflexivity.
Defined.

(** C1, as stated, fails on [sink_pair]: after the call the caller's graph
    has [B] linking to [A] and [B]. *)
Lemma caller_graph_changed :
  exists r,
    iterate_pagerank 11 sink_pair damping_085 = Ok (sink_pair_rewritten, r)
    /\ outlinks sink_pair "B" = []
    /\ outlinks sink_pair_rewritten "B" = ["A"; "B"].
Proof.
  destruct sink_pair_run as [t [E _]].
  exists (Some t). split; [exact E|]. split; reflexivity.
Qed.

(** C2, as amended.  Every turn of the convergence loop updates the table
    in place, page by page in the order of the graph (Gauss-Seidel): a page
    [p] that does not link to itself gets [(1 - damping) / |graph| +
    damping * sum over q in links_to(p) of rank(q) / |outlinks(q)|], where
    [rank(q)] is the value of this turn for a page [q] that comes before
    [p] in the graph and the value of the previous turn for any other. *)
Theorem pass_is_gauss_seidel (corpus : Graph) (damping : Qc) (k : nat) :
  valid_graph corpus = true ->
  exists prev m_prev new m_new,
    loop_state corpus damping k = Ok (prev, m_prev)
    /\ loop_state corpus damping (S k) = Ok (new, m_new)
    /\ dict_keys new = dict_keys corpus
    /\ forall pre p post,
        dict_keys corpus = pre ++ p :: post ->
        set_mem p (outlinks (rewritten corpus) p) = false ->
        dict_get p new
        = Some (reference_rank (rewritten corpus) damping
                  (fun q => if set_mem q pre
                            then rank_of new q else rank_of prev q)
                  p).
Proof.
  intros Hv.
  pose proof (valid_graph_keys _ (rewritten_valid _ Hv)) as Hnd.
  rewrite !(loop_state_unfold _ _ _ Hv), pass_state_snoc.
  destruct (pass_state_runs (rewritten corpus) damping k
              (map (fun k => (k, 1 / num (List.length corpus)))
                   (dict_keys corpus), 1) Hnd)
    as [[prev m_prev] [E Hprev]].
  { cbn [fst]. rewrite rewritten_keys. apply dict_keys_map_key. }
  cbn [fst] in Hprev. rewrite E. cbn [bind fst].
  destruct (rank_pass_exact (rewritten corpus) damping prev Hnd Hprev)
    as [new [m_new [Ep [Hk Hnew]]]].
  exists prev, m_prev, new, m_new.
  split; [reflexivity|]. split; [exact Ep|].
  split; [now rewrite Hk, rewritten_keys|].
  intros pre p post Hsplit Hself.
  rewrite <- rewritten_keys in Hsplit.
  rewrite (Hnew pre p post Hsplit). f_equal.
  unfold reference_rank. apply computed_rank_sum.
  unfold reference_links_to. rewrite filter_In, Hself.
  intros [_ H]. discriminate.
Qed.

Lemma pass_is_gauss_seidel_witness :
  exists prev m_prev new m_new,
    loop_state triangle damping_085 0 = Ok (prev, m_prev)
    /\ loop_state triangle damping_085 1 = Ok (new, m_new)
    /\ dict_keys new = dict_keys triangle
    /\ forall pre p post,
        dict_keys triangle = pre ++ p :: post ->
        set_mem p (outlinks (rewritten triangle) p) = false ->
        dict_get p new
        = Some (reference_rank (rewritten triangle) damping_085
                  (fun q => if set_mem q pre
                            then rank_of new q else rank_of prev q)
                  p).
Proof.
  apply pass_is_gauss_seidel. reflexivity.
Defined.

(** C2, as stated, fails on [triangle]: in the first turn the new rank of
    [C] is not the reference recurrence over the ranks of before the turn,
    because [B], updated earlier in the turn, is read with its new value. *)
Lemma first_pass_not_jacobi :
  exists prev m_prev new m_new,
    loop_state triangle damping_085 0 = Ok (prev, m_prev)
    /\ loop_state triangle damping_085 1 = Ok (new, m_new)
    /\ dict_get "C" new
       <> Some (reference_rank (rewritten triangle) damping_085
                               (rank_of prev) "C").
Proof.
  do 4 eexists. split; [vm_compute; reflexivity|].
  split; [vm_compute; reflexivity|].
  intros H. apply (f_equal (option_map this)) in H.
  vm_compute in H. discriminate.
Qed.



(** Read in the order in which the pages were added, the sets of the
    reverse index give [iterate_pagerank]. *)
Lemma iterate_pagerank_ordered_id (fuel : nat) (corpus : Graph) (d : Qc) :
  iterate_pagerank_ordered (fun links_to => links_to) fuel corpus d
  = iterate_pagerank fuel corpus d.
Proof. reflexivity. Qed.







(** C10.  For a well-formed graph (every outlink target a key) the
    preprocessing never takes the branch that inserts a new key into the
    reverse index: whatever that branch would do, the result is the one of
    the program.  The reverse index has the keys of the graph, and the
    entry of a page holds the pages that link to it after the sink
    rewrite. *)
Theorem else_branch_unreachable
        (else_branch : dict pyset -> string -> string -> result (dict pyset))
        (corpus : Graph) :
  valid_graph corpus = true ->
  exists after pageRank links_to,
    preprocess_with else_branch corpus = Ok (after, (pageRank, links_to))
    /\ preprocess corpus = Ok (after, (pageRank, links_to))
    /\ dict_keys links_to = dict_keys corpus
    /\ forall p, In p (dict_keys corpus) ->
                 dict_get p links_to = Some (reference_links_to after p).
Proof.
  intros Hv. do 3 eexists.
  split; [exact (preprocess_exact else_branch corpus Hv)|].
  split; [exact (preprocess_exact new_key_branch corpus Hv)|].
  split; [apply dict_keys_map_key|].
  intros p Hp.
  exact (dict_get_map_key (reference_links_to (rewritten corpus))
                          (dict_keys corpus) p Hp).
Qed.

Lemma else_branch_unreachable_witness :
  exists after pageRank links_to,
    preprocess_with (fun _ _ _ => Raise KeyError) sink_pair
    = Ok (after, (pageRank, links_to))
    /\ preprocess sink_pair = Ok (after, (pageRank, links_to))
    /\ dict_keys links_to = dict_keys sink_pair
    /\ forall p, In p (dict_keys sink_pair) ->
                 dict_get p links_to = Some (reference_links_to after p).
Proof.
  apply else_branch_unreachable. reflexivity.
Defined.

(** * Further properties of the program *)

(** ** Sets *)

Lemma set_add_In (x y : string) (s : pyset) :
  In y (set_add x s) <-> y = x \/ In y s.
Proof.
  unfold set_add. destruct (set_mem x s) eqn:E.
  - apply set_mem_In in E. split; [auto|]. intros [->|H]; assumption.
  - rewrite in_app_iff. simpl. intuition.
Qed.

Lemma set_add_NoDup (x : string) (s : pyset) : NoDup s -> NoDup (set_add x s).
Proof.
  intros H. unfold set_add. destruct (set_mem x s) eqn:E; [assumption|].
  apply set_mem_false in E. apply NoDup_app; [assumption | |].
  - repeat constructor. simpl. tauto.
  - intros a Ha [<-|[]]. contradiction.
Qed.

Lemma set_update_In (t s : pyset) (y : string) :
  In y (set_update s t) <-> In y s \/ In y t.
Proof.
  unfold set_update. revert s. induction t as [|x t IH]; intros s; simpl.
  - tauto.
  - rewrite IH, set_add_In. intuition.
Qed.

Lemma set_update_keeps_NoDup (t s : pyset) :
  NoDup s -> NoDup (set_update s t).
Proof.
  unfold set_update. revert s. induction t as [|x t IH]; intros s H; simpl.
  - assumption.
  - apply IH, set_add_NoDup, H.
Qed.

Lemma to_set_In (l : list string) (y : string) : In y (to_set l) <-> In y l.
Proof. unfold to_set. rewrite set_update_In. simpl. tauto. Qed.

Lemma to_set_is_set (l : list string) : NoDup (to_set l).
Proof. apply set_update_keeps_NoDup. constructor. Qed.

Lemma set_difference_In (s t : pyset) (y : string) :
  In y (set_difference s t) <-> In y s /\ ~ In y t.
Proof.
  unfold set_difference. rewrite filter_In, negb_true_iff, set_mem_false.
  tauto.
Qed.

Lemma dict_mem_keys {V : Type} (k : string) (d : dict V) :
  dict_mem k d = set_mem k (dict_keys d).
Proof.
  unfold dict_mem. destruct (dict_get k d) eqn:E.
  - symmetry. apply set_mem_In. eapply dict_get_In_keys, E.
  - symmetry. apply set_mem_false. now apply dict_get_None.
Qed.

Lemma valid_graph_intro (g : Graph) :
  NoDup (dict_keys g) ->
  (forall p links, In (p, links) g ->
                   NoDup links /\ incl links (dict_keys g)) ->
  valid_graph g = true.
Proof.
  intros Hk H. unfold valid_graph. apply andb_true_iff.
  split; [now apply nodupb_NoDup|].
  apply forallb_forall. intros [p links] Hin. simpl.
  destruct (H p links Hin) as [H1 H2]. apply andb_true_iff.
  split; [now apply nodupb_NoDup | now apply subsetb_incl].
Qed.

(** ** [crawl] *)

(** What the first loop has stored when it raised nothing, with the pages
    [pages] before it. *)
Lemma read_pages_step (findall : string -> list string) (dir : directory)
      (pages after : Graph) :
  for_each dir (store_page findall) pages = Ok after ->
  (NoDup (dict_keys pages) -> NoDup (dict_keys after))
  /\ (forall p, In p (dict_keys after)
                <-> In p (dict_keys pages)
                    \/ (endswith p ".html" = true /\ In p (map fst dir)))
  /\ (forall p links,
         dict_get p after = Some links ->
         dict_get p pages = Some links
         \/ exists contents,
             In (p, Text contents) dir
             /\ links = set_difference (to_set (findall contents)) [p]).
Proof.
  revert pages. induction dir as [|[name f] dir IH]; intros pages H.
  - simpl in H. injection H as <-. simpl. repeat split; auto; tauto.
  - cbn [for_each] in H. apply bind_Ok in H. destruct H as [pages1 [H1 H]].
    unfold store_page in H1. cbn [fst snd] in H1.
    destruct (IH _ H) as [IH1 [IH2 IH3]]. clear IH H.
    destruct (endswith name ".html") eqn:E; cbn [negb] in H1.
    + destruct f as [contents|e]; cbn [read_file bind] in H1;
        [|discriminate H1].
      injection H1 as <-. split; [|split].
      * intros Hnd. apply IH1, dict_set_NoDup, Hnd.
      * intros p. rewrite IH2. cbn [map fst In].
        destruct (in_dec string_dec name (dict_keys pages)) as [Hin|Hnin].
        -- rewrite dict_keys_set_old by assumption.
           split; [tauto|]. intros [H|[Hp [<-|H]]]; auto.
        -- rewrite (dict_set_new _ _ _ Hnin). unfold dict_keys at 1.
           rewrite map_app, in_app_iff. cbn [map fst In].
           split.
           ++ intros [[H|[<-|[]]]|[Hp H]]; auto.
           ++ intros [H|[Hp [<-|H]]]; auto.
      * intros p links Hget. destruct (IH3 p links Hget) as [H|[c [Hc ->]]].
        -- destruct (string_dec name p) as [->|Hne].
           ++ rewrite dict_get_set_eq in H. injection H as <-.
              right. exists contents. split; [now left | reflexivity].
           ++ rewrite dict_get_set_neq in H by assumption. now left.
        -- right. exists c. split; [now right | reflexivity].
    + injection H1 as <-. split; [exact IH1|]. split.
      * intros p. rewrite IH2. cbn [map fst In].
        split; [tauto|]. intros [H|[Hp [<-|H]]]; auto. congruence.
      * intros p links Hget. destruct (IH3 p links Hget) as [H|[c [Hc ->]]];
          [now left|].
        right. exists c. split; [now right | reflexivity].
Qed.

(** The first loop raises nothing when every [.html] entry can be read. *)
Lemma read_pages_readable (findall : string -> list string) (dir : directory)
      (pages : Graph) :
  readable dir ->
  exists after, for_each dir (store_page findall) pages = Ok after.
Proof.
  revert pages. induction dir as [|[name f] dir IH]; intros pages Hr.
  - simpl. eauto.
  - assert (Hr' : readable dir).
    { intros n e Hin. apply (Hr n e). now right. }
    cbn [for_each]. unfold store_page at 1. cbn [fst snd].
    destruct (endswith name ".html") eqn:E; cbn [negb].
    + destruct f as [contents|e].
      * cbn [read_file bind]. apply IH, Hr'.
      * rewrite (Hr name e (or_introl eq_refl)) in E. discriminate E.
    + cbn [bind]. apply IH, Hr'.
Qed.

(** The first loop raises what opening or reading raises at the first
    [.html] entry that cannot be read. *)
Lemma read_pages_unreadable (findall : string -> list string)
      (dir : directory) (pages : Graph) (name : string) (e : exn) :
  In (name, Unreadable e) dir -> endswith name ".html" = true ->
  exists name' e',
    In (name', Unreadable e') dir /\ endswith name' ".html" = true
    /\ for_each dir (store_page findall) pages = Raise e'.
Proof.
  revert pages. induction dir as [|[n f] dir IH]; intros pages Hin He.
  - destruct Hin.
  - cbn [for_each]. unfold store_page at 1. cbn [fst snd].
    destruct (endswith n ".html") eqn:E; cbn [negb].
    + destruct f as [contents|e0].
      * cbn [read_file bind]. destruct Hin as [Hin|Hin]; [discriminate Hin|].
        destruct (IH (dict_set n
                        (set_difference (to_set (findall contents)) [n])
                        pages) Hin He)
          as [n' [e' [Hin' [He' Hr]]]].
        exists n', e'. split; [now right|]. split; assumption.
      * exists n, e0. split; [now left|]. split; [exact E | reflexivity].
    + cbn [bind]. destruct Hin as [Hin|Hin]; [congruence|].
      destruct (IH pages Hin He) as [n' [e' [Hin' [He' Hr]]]].
      exists n', e'. split; [now right|]. split; assumption.
Qed.

(** The second loop replaces every set, in place. *)
Lemma keep_known_links_aux (keys : list string) (todo done : Graph) :
  NoDup keys -> dict_keys (done ++ todo) = keys ->
  for_each (dict_keys todo)
    (fun pages filename =>
       links <- subscript filename pages ;;
       Ok (dict_set filename
                    (to_set (filter (fun link => dict_mem link pages) links))
                    pages))
    (done ++ todo)
  = Ok (done
        ++ map (fun kv =>
                  (fst kv,
                   to_set (filter (fun link => set_mem link keys) (snd kv))))
               todo).
Proof.
  unfold Graph, pyset in *. intros Hnd. revert done.
  induction todo as [|[k links] todo IH]; intros done Hkeys.
  - reflexivity.
  - assert (Hk : ~ In k (dict_keys done)).
    { rewrite <- Hkeys in Hnd. unfold dict_keys in *.
      rewrite map_app in Hnd. simpl in Hnd.
      intros Hin. apply NoDup_remove_2 in Hnd. apply Hnd, in_or_app.
      now left. }
    assert (Hget : dict_get k (done ++ (k, links) :: todo) = Some links).
    { rewrite (dict_get_app_r _ _ _ Hk). simpl.
      now rewrite String.eqb_refl. }
    assert (Hset : forall l' : list string,
               dict_set k l' (done ++ (k, links) :: todo)
               = (done ++ [(k, l')]) ++ todo).
    { intros l'. rewrite (dict_set_app_r _ _ _ _ Hk). simpl.
      rewrite String.eqb_refl, <- app_assoc. reflexivity. }
    cbn [dict_keys map fst snd for_each]. fold (dict_keys todo).
    rewrite (subscript_Ok _ _ _ Hget). cbn [bind].
    rewrite Hset.
    rewrite (filter_ext (fun link => dict_mem link (done ++ (k, links) :: todo))
                        (fun link => set_mem link keys))
      by (intros a; rewrite dict_mem_keys, Hkeys; reflexivity).
    rewrite IH.
    + rewrite <- app_assoc. reflexivity.
    + etransitivity; [|exact Hkeys]. unfold dict_keys.
      rewrite !map_app, <- app_assoc. reflexivity.
Qed.

Lemma keep_known_links_exact (pages : Graph) :
  NoDup (dict_keys pages) ->
  keep_known_links pages
  = Ok (map (fun kv =>
               (fst kv,
                to_set (filter (fun link => set_mem link (dict_keys pages))
                               (snd kv))))
            pages).
Proof.
  intros H. exact (keep_known_links_aux (dict_keys pages) pages [] H eq_refl).
Qed.

Lemma read_pages_facts (findall : string -> list string) (dir : directory)
      (pages : Graph) :
  read_pages findall dir = Ok pages ->
  NoDup (dict_keys pages)
  /\ (forall p, In p (dict_keys pages)
                <-> endswith p ".html" = true /\ In p (map fst dir))
  /\ (forall p links,
         dict_get p pages = Some links ->
         exists contents,
           In (p, Text contents) dir
           /\ links = set_difference (to_set (findall contents)) [p]).
Proof.
  intros H. destruct (read_pages_step findall dir [] pages H) as [H1 [H2 H3]].
  split; [apply H1; constructor|]. split.
  - intros p. rewrite H2. simpl. tauto.
  - intros p links Hget. destruct (H3 p links Hget) as [H'|H'];
      [discriminate | exact H'].
Qed.

Lemma crawl_exact (findall : string -> list string) (dir : directory)
      (pages : Graph) :
  read_pages findall dir = Ok pages ->
  crawl findall dir
  = Ok (map (fun kv =>
               (fst kv,
                to_set (filter (fun link => set_mem link (dict_keys pages))
                               (snd kv))))
            pages).
Proof.
  intros H. unfold crawl. rewrite H. cbn [bind].
  apply keep_known_links_exact, (read_pages_facts findall dir pages H).
Qed.

Lemma In_unique_value {V : Type} (d : list (string * V)) (k : string)
      (v v' : V) :
  NoDup (map fst d) -> In (k, v) d -> In (k, v') d -> v = v'.
Proof.
  induction d as [|[k0 v0] d IH]; simpl; [tauto|].
  intros Hnd H1 H2. inversion Hnd as [|? ? Hk Hnd']; subst.
  destruct H1 as [H1|H1], H2 as [H2|H2].
  - congruence.
  - injection H1 as -> ->. exfalso. apply Hk.
    apply (in_map fst) in H2. exact H2.
  - injection H2 as -> ->. exfalso. apply Hk.
    apply (in_map fst) in H1. exact H1.
  - now apply IH.
Qed.

(** Keeping only the links that are pages leaves a well-formed graph. *)
Lemma kept_links_valid (pages : Graph) :
  NoDup (dict_keys pages) ->
  valid_graph
    (map (fun kv : string * list string =>
            (fst kv,
             to_set (filter (fun link => set_mem link (dict_keys pages))
                            (snd kv))))
         pages)
  = true.
Proof.
  intros Hnd.
  set (keep := fun kv : string * list string =>
                 to_set (filter (fun link => set_mem link (dict_keys pages))
                                (snd kv))).
  change (valid_graph (map (fun kv => (fst kv, keep kv)) pages) = true).
  pose proof (dict_keys_map_snd keep pages) as Hk.
  apply valid_graph_intro.
  - unfold Graph, pyset in *. now rewrite Hk.
  - intros p links Hin. apply in_map_iff in Hin.
    destruct Hin as [[p' v] [E Hin]]. simpl in E. injection E as <- <-.
    split; [apply to_set_is_set|].
    intros l Hl. unfold Graph, pyset in *. rewrite Hk. unfold keep in Hl.
    apply to_set_In, filter_In in Hl. apply set_mem_In, Hl.
Qed.

(** When every [.html] entry can be read, [crawl] returns a well-formed
    graph of the [.html] names. *)
Lemma crawl_returns (findall : string -> list string) (dir : directory) :
  readable dir ->
  exists corpus,
    crawl findall dir = Ok corpus
    /\ valid_graph corpus = true
    /\ forall p, In p (dict_keys corpus)
                 <-> endswith p ".html" = true /\ In p (map fst dir).
Proof.
  intros Hr.
  destruct (read_pages_readable findall dir [] Hr) as [pages Hp].
  destruct (read_pages_facts findall dir pages Hp) as [Hnd [Hkeys _]].
  eexists. split; [exact (crawl_exact findall dir pages Hp)|].
  split; [exact (kept_links_valid _ Hnd)|].
  intros p.
  rewrite (dict_keys_map_snd
             (fun kv : string * list string =>
                to_set (filter
                          (fun link => set_mem link (dict_keys pages))
                          (snd kv)))).
  apply Hkeys.
Qed.

Lemma site_readable : readable site.
Proof.
  intros name e H. unfold site in H. simpl in H.
  repeat (destruct H as [H|H]; [discriminate H|]). destruct H.
Qed.

(** X1.  When every entry of the directory whose name ends in [.html] can
    be opened and read, [crawl] raises nothing and returns a well-formed
    graph, whatever the files hold: its pages are exactly the names of the
    directory that end in [.html], every link set is without repetition
    and names pages of the graph only, and no page links to itself. *)
Theorem crawl_gives_valid_graph (findall : string -> list string)
        (dir : directory) :
  readable dir ->
  exists corpus,
    crawl findall dir = Ok corpus
    /\ valid_graph corpus = true
    /\ no_self_link corpus
    /\ forall p, In p (dict_keys corpus)
                 <-> endswith p ".html" = true /\ In p (map fst dir).
Proof.
  intros Hr.
  destruct (read_pages_readable findall dir [] Hr) as [pages Hp].
  destruct (read_pages_facts findall dir pages Hp) as [Hnd [Hkeys Hval]].
  eexists. split; [exact (crawl_exact findall dir pages Hp)|].
  set (keep := fun links : list string =>
                 to_set (filter (fun link => set_mem link (dict_keys pages))
                                links)).
  change (map (fun kv : string * list string =>
                 (fst kv,
                  to_set (filter (fun link => set_mem link (dict_keys pages))
                                 (snd kv)))) pages)
    with (map (fun kv : string * list string => (fst kv, keep (snd kv))) pages).
  assert (Hk : dict_keys (map (fun kv : string * list string =>
                                 (fst kv, keep (snd kv))) pages)
               = dict_keys pages)
    by apply (dict_keys_map_snd (fun kv => keep (snd kv))).
  split; [|split].
  - exact (kept_links_valid pages Hnd).
  - intros p links Hget. unfold Graph, pyset in *.
    rewrite (dict_get_map_values (fun _ v => keep v) pages p) in Hget.
    destruct (dict_get p pages) as [v|] eqn:Ev; cbn [option_map] in Hget;
      [|discriminate Hget].
    injection Hget as <-.
    destruct (Hval p v Ev) as [contents [_ ->]].
    unfold keep. rewrite to_set_In, filter_In, set_difference_In.
    simpl. tauto.
  - intros p. rewrite Hk. apply Hkeys.
Qed.

Lemma crawl_gives_valid_graph_witness :
  exists corpus,
    crawl whole_text site = Ok corpus
    /\ valid_graph corpus = true
    /\ no_self_link corpus
    /\ forall p, In p (dict_keys corpus)
                 <-> endswith p ".html" = true /\ In p (map fst site).
Proof.
  apply (crawl_gives_valid_graph whole_text site). exact site_readable.
Defined.

(** X2.  In a directory whose names are distinct, the links [crawl] gives a
    page are the links found in the text of its file, except the page
    itself and the links that are not pages of the corpus. *)
Theorem crawl_links (findall : string -> list string) (dir : directory)
        (corpus : Graph) (p contents : string) (links : pyset) :
  NoDup (map fst dir) -> crawl findall dir = Ok corpus ->
  In (p, Text contents) dir -> dict_get p corpus = Some links ->
  incl links (findall contents)
  /\ ~ In p links
  /\ incl links (dict_keys corpus)
  /\ forall l, In l (findall contents) -> l <> p ->
               In l (dict_keys corpus) -> In l links.
Proof.
  intros Hdir Hc Hin Hget.
  destruct (read_pages findall dir) as [pages|e] eqn:Hp;
    [|unfold crawl in Hc; rewrite Hp in Hc; discriminate Hc].
  destruct (read_pages_facts findall dir pages Hp) as [Hnd [Hkeys Hval]].
  rewrite (crawl_exact findall dir pages Hp) in Hc. injection Hc as <-.
  set (keep := fun links : list string =>
                 to_set (filter (fun link => set_mem link (dict_keys pages))
                                links)).
  change (map (fun kv : string * list string =>
                 (fst kv,
                  to_set (filter (fun link => set_mem link (dict_keys pages))
                                 (snd kv)))) pages)
    with (map (fun kv : string * list string => (fst kv, keep (snd kv))) pages)
    in *.
  assert (Hk : dict_keys (map (fun kv : string * list string =>
                                 (fst kv, keep (snd kv))) pages)
               = dict_keys pages)
    by apply (dict_keys_map_snd (fun kv => keep (snd kv))).
  unfold Graph, pyset in *.
  rewrite (dict_get_map_values (fun _ v => keep v) pages p) in Hget.
  destruct (dict_get p pages) as [v|] eqn:Ev; cbn [option_map] in Hget;
    [|discriminate Hget].
  injection Hget as <-.
  destruct (Hval p v Ev) as [contents' [Hin' ->]].
  assert (Heq : Text contents' = Text contents)
    by (eapply In_unique_value; eassumption).
  injection Heq as ->. rewrite Hk.
  assert (Hl : forall l,
             In l (keep (set_difference (to_set (findall contents)) [p]))
             <-> In l (findall contents) /\ l <> p /\ In l (dict_keys pages)).
  { intros l. unfold keep.
    rewrite to_set_In, filter_In, set_difference_In, to_set_In, set_mem_In.
    simpl. intuition. }
  repeat split.
  - intros l H. apply Hl in H. tauto.
  - intros H. apply Hl in H. tauto.
  - intros l H. apply Hl in H. tauto.
  - intros l H1 H2 H3. apply Hl. tauto.
Qed.

Lemma crawl_links_witness :
  incl ["b.html"] (whole_text "b.html")
  /\ ~ In "a.html" ["b.html"]
  /\ incl ["b.html"]
          (dict_keys [("a.html", ["b.html"]); ("b.html", ["c.html"]);
                      ("c.html", @nil string)])
  /\ forall l, In l (whole_text "b.html") -> l <> "a.html" ->
               In l (dict_keys [("a.html", ["b.html"]); ("b.html", ["c.html"]);
                                ("c.html", @nil string)]) ->
               In l ["b.html"].
Proof.
  apply (crawl_links whole_text site _ "a.html" "b.html").
  - vm_compute. repeat constructor; simpl; intuition discriminate.
  - reflexivity.
  - simpl. auto.
  - reflexivity.
Defined.

(** X16.  When an entry of the directory whose name ends in [.html] cannot
    be opened or read (a sub-directory, a file without permission, bytes
    that are no text), [crawl] returns no graph: it raises what opening or
    reading such an entry raises. *)
Theorem crawl_unreadable_file (findall : string -> list string)
        (dir : directory) (name : string) (e : exn) :
  In (name, Unreadable e) dir -> endswith name ".html" = true ->
  exists name' e',
    In (name', Unreadable e') dir /\ endswith name' ".html" = true
    /\ crawl findall dir = Raise e'.
Proof.
  intros Hin He.
  destruct (read_pages_unreadable findall dir [] name e Hin He)
    as [name' [e' [Hin' [He' Hr]]]].
  exists name', e'. split; [exact Hin'|]. split; [exact He'|].
  unfold crawl, read_pages. rewrite Hr. reflexivity.
Qed.

Lemma crawl_unreadable_file_witness :
  exists name' e',
    In (name', Unreadable e') site_with_folder
    /\ endswith name' ".html" = true
    /\ crawl whole_text site_with_folder = Raise e'.
Proof.
  apply (crawl_unreadable_file whole_text site_with_folder "old.html" OSError).
  - simpl. auto.
  - reflexivity.
Defined.

(** ** [transition_model]: errors and bounds *)

(** The loop over the links raises [KeyError] at the first link that is no
    key of the model. *)
Lemma add_links_outcome (extra : Qc) (keys links : list string)
      (model : dict Qc) :
  dict_keys model = keys ->
  if subsetb links keys
  then exists model',
      for_each links
        (fun model link =>
           p <- subscript link model ;; Ok (dict_set link (p + extra) model))
        model = Ok model'
      /\ dict_keys model' = keys
  else for_each links
         (fun model link =>
            p <- subscript link model ;; Ok (dict_set link (p + extra) model))
         model = Raise KeyError.
Proof.
  revert model. induction links as [|x links IH]; intros model Hk.
  - simpl. eauto.
  - cbn [subsetb forallb for_each]. fold (subsetb links keys).
    destruct (set_mem x keys) eqn:Ex; cbn [andb].
    + apply set_mem_In in Ex. rewrite <- Hk in Ex.
      destruct (dict_get_Some_of_key _ _ Ex) as [p Hp].
      rewrite (subscript_Ok _ _ _ Hp). cbn [bind].
      apply IH. now rewrite dict_keys_set_old.
    + apply set_mem_false in Ex. rewrite <- Hk in Ex.
      apply dict_get_None in Ex. unfold subscript. rewrite Ex. reflexivity.
Qed.

(** X3.  [transition_model] raises [KeyError] when the page is no key of
    the corpus, and when one of its links is no key of the corpus;
    otherwise it returns a table with the keys of the corpus. *)
Theorem transition_model_key_errors (corpus : Graph) (page : string)
        (damping : Qc) :
  NoDup (dict_keys corpus) ->
  match dict_get page corpus with
  | None => transition_model corpus page damping = Raise KeyError
  | Some links =>
      if subsetb links (dict_keys corpus)
      then exists model,
          transition_model corpus page damping = Ok model
          /\ dict_keys model = dict_keys corpus
      else transition_model corpus page damping = Raise KeyError
  end.
Proof.
  intros Hk. unfold transition_model, subscript.
  destruct (dict_get page corpus) as [links|]; [|reflexivity].
  cbn [bind]. destruct links as [|l ls].
  - cbn [subsetb forallb List.length Nat.eqb negb].
    rewrite (dict_fill (fun _ => 1 / num (List.length corpus)))
      by (simpl; assumption).
    eexists. split; [reflexivity|]. apply dict_keys_map_key.
  - cbn [List.length Nat.eqb negb].
    rewrite (dict_fill (fun _ => (1 - damping) / num (List.length corpus)))
      by (simpl; assumption).
    cbn [app].
    apply (add_links_outcome (damping / num (S (List.length ls)))).
    apply dict_keys_map_key.
Qed.

Lemma transition_model_key_errors_witness :
  match dict_get "A" dangling with
  | None => transition_model dangling "A" damping_085 = Raise KeyError
  | Some links =>
      if subsetb links (dict_keys dangling)
      then exists model,
          transition_model dangling "A" damping_085 = Ok model
          /\ dict_keys model = dict_keys dangling
      else transition_model dangling "A" damping_085 = Raise KeyError
  end.
Proof.
  apply transition_model_key_errors.
  vm_compute. repeat constructor; simpl; intuition discriminate.
Defined.

(** X4.  Whenever [transition_model] returns, the values of its table add
    up to 1, whatever the damping factor (inside [0, 1] or not). *)
Theorem transition_model_total_mass (corpus : Graph) (page : string)
        (damping : Qc) (model : dict Qc) :
  NoDup (dict_keys corpus) ->
  transition_model corpus page damping = Ok model ->
  sum_values model = 1.
Proof. apply transition_model_sum. Qed.

Lemma transition_model_total_mass_witness :
  sum_values (value_of (transition_model triangle "A" (Q2Qc 3)) []) = 1.
Proof.
  apply (transition_model_total_mass triangle "A" (Q2Qc 3)).
  - vm_compute. repeat constructor; simpl; intuition discriminate.
  - vm_compute. reflexivity.
Defined.

Lemma Qcplus_nonneg (x y : Qc) : 0 <= x -> 0 <= y -> 0 <= x + y.
Proof.
  intros Hx Hy. apply Qcle_trans with x; [assumption|].
  now apply Qcplus_le_r.
Qed.

(** In a table without negative values no value exceeds the total. *)
Lemma value_le_sum (d : dict Qc) (k : string) (v : Qc) :
  Forall (fun kv => 0 <= snd kv) d -> In (k, v) d -> v <= sum_values d.
Proof.
  unfold sum_values, dict_values.
  induction d as [|[k0 v0] d IH]; simpl; [tauto|].
  intros Hall [H|H]; inversion Hall as [|? ? H0 Hall']; subst; simpl in *.
  - injection H as -> ->. apply Qcplus_le_r.
    clear - Hall'. induction d as [|[k1 v1] d IH]; simpl.
    + apply Qcle_refl.
    + inversion Hall'; subst. apply Qcplus_nonneg; auto.
  - apply Qcle_trans with (fold_right Qcplus 0 (map snd d)); [auto|].
    rewrite Qcplus_comm. now apply Qcplus_le_r.
Qed.

Lemma add_links_nonneg (extra : Qc) (links : list string)
      (model model' : dict Qc) :
  0 <= extra -> Forall (fun kv => 0 <= snd kv) model ->
  for_each links
    (fun model link =>
       p <- subscript link model ;; Ok (dict_set link (p + extra) model))
    model = Ok model' ->
  Forall (fun kv => 0 <= snd kv) model'.
Proof.
  intros He. revert model. induction links as [|x links IH]; intros model Hm.
  - simpl. intros [= <-]. exact Hm.
  - cbn [for_each]. intros H. apply bind_Ok in H. destruct H as [m1 [H1 H2]].
    apply bind_Ok in H1. destruct H1 as [p [Hp H1]]. injection H1 as <-.
    unfold subscript in Hp. destruct (dict_get x model) eqn:E; [|discriminate].
    injection Hp as ->. apply (IH _ ) in H2; [exact H2|].
    apply Forall_forall. intros [k v] Hin.
    apply In_dict_set in Hin. destruct Hin as [[-> ->]|Hin]; simpl.
    + apply Qcplus_nonneg; [|assumption].
      rewrite Forall_forall in Hm. apply (Hm (x, p)), dict_get_In, E.
    + rewrite Forall_forall in Hm. apply (Hm (k, v) Hin).
Qed.

(** X5.  For a damping factor in [0, 1], every value of the table that
    [transition_model] returns lies between 0 and 1. *)
Theorem transition_model_probabilities (corpus : Graph) (page : string)
        (damping : Qc) (model : dict Qc) :
  NoDup (dict_keys corpus) -> 0 <= damping <= 1 ->
  transition_model corpus page damping = Ok model ->
  Forall (fun kv => 0 <= snd kv <= 1) model.
Proof.
  intros Hk [Hd0 Hd1] Hm.
  pose proof (transition_model_sum _ _ _ _ Hk Hm) as Hsum.
  assert (Hnn : Forall (fun kv => 0 <= snd kv) model).
  { unfold transition_model in Hm.
    apply bind_Ok in Hm. destruct Hm as [links [Hl Hm]].
    unfold subscript in Hl.
    destruct (dict_get page corpus) eqn:E; [|discriminate].
    injection Hl as ->.
    assert (HN : 0 < num (List.length corpus)).
    { apply num_pos. eapply graph_nonempty, dict_get_In_keys, E. }
    destruct links as [|l ls].
    - simpl in Hm. injection Hm as <-.
      rewrite (dict_fill (fun _ => 1 / num (List.length corpus)))
        by (simpl; assumption).
      apply Forall_forall. intros [k v] Hin. cbn [app] in Hin.
      apply in_map_iff in Hin. destruct Hin as [k' [[= <- <-] _]]. simpl.
      apply Qcdiv_nonneg; [vm_compute; discriminate | assumption].
    - cbn [List.length Nat.eqb negb] in Hm.
      rewrite (dict_fill (fun _ => (1 - damping) / num (List.length corpus)))
        in Hm by (simpl; assumption).
      apply add_links_nonneg in Hm; [exact Hm | |].
      + apply Qcdiv_nonneg; [assumption | apply num_pos; lia].
      + apply Forall_forall. intros [k v] Hin. cbn [app] in Hin.
        apply in_map_iff in Hin. destruct Hin as [k' [[= <- <-] _]]. simpl.
        apply Qcdiv_nonneg; [|assumption].
        apply Qcle_minus_iff in Hd1. exact Hd1. }
  apply Forall_forall. intros [k v] Hin. simpl. split.
  - rewrite Forall_forall in Hnn. apply (Hnn (k, v) Hin).
  - rewrite <- Hsum. eapply value_le_sum; eassumption.
Qed.

Lemma transition_model_probabilities_witness :
  Forall (fun kv => 0 <= snd kv <= 1)
         (value_of (transition_model triangle "A" damping_085) []).
Proof.
  apply (transition_model_probabilities triangle "A" damping_085).
  - vm_compute. repeat constructor; simpl; intuition discriminate.
  - split; vm_compute; discriminate.
  - vm_compute. reflexivity.
Defined.

(** ** The sink rewrite and the sampler *)

(** X6.  The graph that [iterate_pagerank] leaves to its caller gives, for
    a page that had an outlink, the transition model it gave before the
    call.  For a page that was a sink the model is computed on the other
    branch after the call: every page gets [(1 - d) / N + d / N], taken
    over the [N] links the sink now has, where it got [1 / N] before. *)
Theorem sink_rewrite_and_transition_model (fuel : nat) (corpus : Graph)
        (damping : Qc) :
  valid_graph corpus = true ->
  exists after r,
    iterate_pagerank fuel corpus damping = Ok (after, r)
    /\ (forall page links d,
           dict_get page corpus = Some links -> links <> [] ->
           transition_model after page d = transition_model corpus page d)
    /\ (forall page d,
           dict_get page corpus = Some [] ->
           transition_model corpus page d
           = Ok (map (fun key => (key, 1 / num (List.length corpus)))
                     (dict_keys corpus))
           /\ transition_model after page d
              = Ok (map (fun key =>
                           (key, (1 - d) / num (List.length corpus)
                                 + d / num (List.length corpus)))
                        (dict_keys corpus))).
Proof.
  intros Hv. destruct (iterate_pagerank_runs fuel corpus damping Hv) as [r E].
  exists (rewritten corpus), r. split; [exact E|].
  pose proof (valid_graph_keys _ Hv) as Hk.
  pose proof (rewritten_valid _ Hv) as Hv'.
  pose proof (valid_graph_keys _ Hv') as Hk'.
  assert (Hexact : forall page links d,
             dict_get page corpus = Some links ->
             transition_model corpus page d
             = Ok (map (fun key =>
                          (key, reference_distribution corpus page d key))
                       (dict_keys corpus))
             /\ transition_model (rewritten corpus) page d
                = Ok (map (fun key =>
                             (key, reference_distribution (rewritten corpus)
                                     page d key))
                          (dict_keys corpus))
             /\ dict_get page (rewritten corpus)
                = Some (if is_empty_set links then dict_keys corpus
                        else links)).
  { intros page links d El.
    destruct (valid_graph_links _ _ _ Hv El) as [Hnd Hincl].
    assert (El' : dict_get page (rewritten corpus)
                  = Some (if is_empty_set links then dict_keys corpus
                          else links))
      by (rewrite rewritten_get, El; reflexivity).
    destruct (valid_graph_links _ _ _ Hv' El') as [Hnd' Hincl'].
    split; [exact (transition_model_exact _ d _ _ Hk El Hnd Hincl)|].
    split; [|exact El'].
    rewrite (transition_model_exact (rewritten corpus) d _ _ Hk' El'
               Hnd' Hincl').
    now rewrite rewritten_keys. }
  split.
  - intros page links d El Hne.
    destruct (Hexact page links d El) as [-> [-> El']].
    f_equal. apply map_ext. intros key. f_equal.
    unfold reference_distribution. rewrite El', El, rewritten_length.
    destruct links as [|l ls]; [congruence | reflexivity].
  - intros page d El.
    destruct (Hexact page [] d El) as [-> [-> El']].
    cbn [is_empty_set] in El'. split.
    + f_equal. apply map_ext. intros key. f_equal.
      unfold reference_distribution. now rewrite El.
    + f_equal. apply map_ext_in. intros key Hkey. f_equal.
      unfold reference_distribution. rewrite El', rewritten_length.
      destruct (dict_keys corpus) as [|k ks] eqn:Ekeys; [destruct Hkey|].
      apply set_mem_In in Hkey. rewrite Hkey.
      now rewrite <- Ekeys, dict_keys_length.
Qed.

Lemma sink_rewrite_and_transition_model_witness :
  exists after r,
    iterate_pagerank 11 sink_pair damping_085 = Ok (after, r)
    /\ (forall page links d,
           dict_get page sink_pair = Some links -> links <> [] ->
           transition_model after page d = transition_model sink_pair page d)
    /\ (forall page d,
           dict_get page sink_pair = Some [] ->
           transition_model sink_pair page d
           = Ok (map (fun key => (key, 1 / num (List.length sink_pair)))
                     (dict_keys sink_pair))
           /\ transition_model after page d
              = Ok (map (fun key =>
                           (key, (1 - d) / num (List.length sink_pair)
                                 + d / num (List.length sink_pair)))
                        (dict_keys sink_pair))).
Proof.
  apply sink_rewrite_and_transition_model. reflexivity.
Defined.

(** The two expressions of a sink are one number in exact arithmetic and
    two floats as the program computes: with five pages and damping 0.85
    the sink [p0] gives every page [0.2] before the call and
    [0.19999999999999998] after it, and with the draw
    [7205759403792793 * 2^-53] the cumulative loop breaks at [p3] before
    the call and at [p4] after it.  So the sampler need not repeat a walk
    on the graph that [iterate_pagerank] has left. *)
Lemma sink_model_changes_binary64 :
  exists before after,
    Binary64.transition_model five_pages "p0" Binary64.damping_point_85
    = Ok before
    /\ Binary64.transition_model (rewritten five_pages) "p0"
                                 Binary64.damping_point_85
       = Ok after
    /\ Binary64.draw before Binary64.below_four_fifths (Binary64.of_nat 0)
                     None
       = Some "p3"
    /\ Binary64.draw after Binary64.below_four_fifths (Binary64.of_nat 0)
                     None
       = Some "p4".
Proof.
  eexists. eexists. split; [vm_compute; reflexivity|].
  split; [vm_compute; reflexivity|].
  split; vm_compute; reflexivity.
Qed.

(** X7.  Whenever [sample_pagerank] returns, with [n >= 1], its table holds
    pages of the corpus only, each once, every value is above 0 and at
    most 1, and the page the walk started from is one of them.  This holds
    whatever the graph, the damping factor and the draws are. *)
Theorem sample_pagerank_table (corpus : Graph) (damping : Qc) (n : Z)
        (start : nat) (draws : nat -> Qc) (ranks : RankTable) :
  (1 <= n)%Z ->
  sample_pagerank corpus damping n start draws = Ok ranks ->
  NoDup (dict_keys ranks)
  /\ incl (dict_keys ranks) (dict_keys corpus)
  /\ Forall (fun kv => 0 < snd kv /\ snd kv <= 1) ranks
  /\ exists p0,
      random_choice (dict_keys corpus) start = Ok p0
      /\ In p0 (dict_keys ranks).
Proof.
  intros Hn H.
  destruct (sample_pagerank_counted _ _ _ _ _ _ H)
    as [p0 [w [Ec [_ [[Hnd [Hsum [Hc [_ H1]]]] ->]]]]].
  assert (Hnum : Z2Qc n = num (Z.to_nat n)).
  { unfold num. rewrite Z2Nat.id by lia. reflexivity. }
  assert (Hpos : 0 < num (Z.to_nat n)) by (apply num_pos; lia).
  assert (Hkeys : dict_keys (map (fun kv : string * Qc =>
                                    (fst kv, snd kv / Z2Qc n)) (pageRanks w))
                  = dict_keys (pageRanks w))
    by apply (dict_keys_map_snd (fun kv => snd kv / Z2Qc n)).
  rewrite Hkeys. split; [exact Hnd|]. split; [|split].
  - intros key Hkey. apply dict_get_Some_of_key in Hkey.
    destruct Hkey as [c Hg]. apply dict_get_In, Hc in Hg. tauto.
  - apply Forall_forall. intros [key v] Hin.
    apply in_map_iff in Hin. destruct Hin as [[key' c] [Heq Hin]].
    cbn [fst snd] in Heq. injection Heq as -> <-.
    cbn [snd]. rewrite Hnum.
    destruct (Hc key c Hin) as [_ H1c].
    assert (Hc0 : 0 < c).
    { apply Qclt_le_trans with 1; [reflexivity | exact H1c]. }
    split; [now apply Qcdiv_pos|].
    assert (Hle : c <= num (Z.to_nat n)).
    { rewrite <- Hsum. apply (value_le_sum _ key); [|exact Hin].
      apply Forall_forall. intros [k' c'] Hin'. simpl.
      apply Qcle_trans with 1; [vm_compute; discriminate|].
      apply (Hc k' c' Hin'). }
    unfold Qcdiv.
    replace 1 with (num (Z.to_nat n) * / num (Z.to_nat n)).
    + apply Qcmult_le_compat_r; [exact Hle|].
      apply Qclt_le_weak, Qcinv_pos, Hpos.
    + apply Qcmult_inv_r. intros H0. rewrite H0 in Hpos.
      revert Hpos. apply Qcle_not_lt, Qcle_refl.
  - exists p0. split; [exact Ec|]. apply H1. lia.
Qed.

Lemma sample_pagerank_table_witness :
  NoDup (dict_keys
           (value_of (sample_pagerank sink_pair damping_085 4 0 half_draws)
                     []))
  /\ incl (dict_keys
             (value_of (sample_pagerank sink_pair damping_085 4 0 half_draws)
                       []))
          (dict_keys sink_pair)
  /\ Forall (fun kv => 0 < snd kv /\ snd kv <= 1)
            (value_of (sample_pagerank sink_pair damping_085 4 0 half_draws)
                      [])
  /\ exists p0,
      random_choice (dict_keys sink_pair) 0 = Ok p0
      /\ In p0 (dict_keys
                  (value_of
                     (sample_pagerank sink_pair damping_085 4 0 half_draws)
                     [])).
Proof.
  apply (sample_pagerank_table sink_pair damping_085 4 0 half_draws).
  - lia.
  - vm_compute. reflexivity.
Defined.

(** ** [iterate_pagerank]: the returned table *)

Lemma rank_of_Some (table : dict Qc) (q : string) (v : Qc) :
  dict_get q table = Some v -> rank_of table q = v.
Proof. intros H. unfold rank_of, dict_get_default. now rewrite H. Qed.

(** The inner loop of a pass writes the entry of its page only. *)
Lemma inner_loop_frame (g : Graph) (d : Qc) (p : string)
      (srcs : list string) (pr pr' : dict Qc) :
  for_each srcs
    (fun pageRank link =>
       acc <- subscript p pageRank ;;
       r <- subscript link pageRank ;;
       out <- subscript link g ;;
       Ok (dict_set p (acc + d * (r / num (List.length out))) pageRank))
    pr = Ok pr' ->
  forall q, q <> p -> dict_get q pr' = dict_get q pr.
Proof.
  revert pr. induction srcs as [|x srcs IH]; intros pr H q Hq.
  - simpl in H. now injection H as <-.
  - cbn [for_each] in H. apply bind_Ok in H. destruct H as [pr1 [H1 H2]].
    apply bind_Ok in H1. destruct H1 as [acc [_ H1]].
    apply bind_Ok in H1. destruct H1 as [r [_ H1]].
    apply bind_Ok in H1. destruct H1 as [out [_ H1]].
    injection H1 as <-.
    rewrite (IH _ H2 q Hq). apply dict_get_set_neq. congruence.
Qed.

(** What one step of a pass does to the other pages and to
    [maxdifference]. *)
Lemma update_rank_inv (g : Graph) (lt : dict pyset) (d : Qc)
      (lastrank : dict Qc) (st st' : dict Qc * Qc) (p : string) :
  update_rank g lt d lastrank st p = Ok st' ->
  (forall q, q <> p -> dict_get q (fst st') = dict_get q (fst st))
  /\ snd st <= snd st'
  /\ Qcabs.Qcabs (rank_of (fst st') p - rank_of lastrank p) <= snd st'.
Proof.
  unfold update_rank. intros H.
  apply bind_Ok in H. destruct H as [srcs [_ H]].
  apply bind_Ok in H. destruct H as [pr2 [Hloop H]].
  apply bind_Ok in H. destruct H as [new [Hnew H]].
  apply bind_Ok in H. destruct H as [old [Hold H]].
  rewrite Hnew, Hold in H. cbn [bind] in H.
  apply subscript_inv, rank_of_Some in Hnew.
  apply subscript_inv, rank_of_Some in Hold.
  assert (Hframe : forall q, q <> p -> dict_get q pr2 = dict_get q (fst st)).
  { intros q Hq. rewrite (inner_loop_frame _ _ _ _ _ _ Hloop q Hq).
    apply dict_get_set_neq. congruence. }
  destruct (Qcgtb (Qcabs.Qcabs (new - old)) (snd st)) eqn:E;
    injection H as <-; cbn [fst snd]; rewrite Hnew, Hold.
  - apply Qcgtb_true in E. split; [exact Hframe|].
    split; [now apply Qclt_le_weak | apply Qcle_refl].
  - apply Qcgtb_false in E. split; [exact Hframe|].
    split; [apply Qcle_refl | exact E].
Qed.

Lemma pass_frame (g : Graph) (lt : dict pyset) (d : Qc) (lastrank : dict Qc)
      (post : list string) (st st' : dict Qc * Qc) :
  for_each post (update_rank g lt d lastrank) st = Ok st' ->
  forall q, ~ In q post -> dict_get q (fst st') = dict_get q (fst st).
Proof.
  revert st. induction post as [|p post IH]; intros st H q Hq.
  - simpl in H. now injection H as <-.
  - cbn [for_each] in H. apply bind_Ok in H. destruct H as [st1 [H1 H2]].
    rewrite (IH _ H2 q) by (simpl in Hq; tauto).
    apply (update_rank_inv _ _ _ _ _ _ _ H1). simpl in Hq. intros ->. tauto.
Qed.

(** [maxdifference] bounds the change of every page of the pass. *)
Lemma pass_maxdiff (g : Graph) (lt : dict pyset) (d : Qc)
      (lastrank : dict Qc) (post : list string) (st st' : dict Qc * Qc) :
  NoDup post ->
  for_each post (update_rank g lt d lastrank) st = Ok st' ->
  snd st <= snd st'
  /\ forall p, In p post ->
               Qcabs.Qcabs (rank_of (fst st') p - rank_of lastrank p)
               <= snd st'.
Proof.
  revert st. induction post as [|p post IH]; intros st Hnd H.
  - simpl in H. injection H as <-. split; [apply Qcle_refl | intros p []].
  - cbn [for_each] in H. apply bind_Ok in H. destruct H as [st1 [H1 H2]].
    inversion Hnd as [|? ? Hp Hnd']; subst.
    destruct (update_rank_inv _ _ _ _ _ _ _ H1) as [_ [Hm Hd]].
    destruct (IH _ Hnd' H2) as [Hm' Hall].
    split; [eapply Qcle_trans; eassumption|].
    intros q [<-|Hq]; [|now apply Hall].
    unfold rank_of at 1, dict_get_default.
    rewrite (pass_frame _ _ _ _ _ _ _ H2 p Hp).
    fold (dict_get_default p 0 (fst st1)). fold (rank_of (fst st1) p).
    eapply Qcle_trans; eassumption.
Qed.

(** A returned table comes out of a turn of the loop: the loop makes at
    least one turn, and the last one ends with a maximal difference that
    is not above the tolerance. *)
Lemma iterate_returned_after_pass (fuel : nat) (corpus after : Graph)
      (d : Qc) (t : RankTable) :
  valid_graph corpus = true ->
  iterate_pagerank fuel corpus d = Ok (after, Some t) ->
  exists k prev m_prev m,
    loop_state corpus d k = Ok (prev, m_prev)
    /\ loop_state corpus d (S k) = Ok (t, m)
    /\ rank_pass (rewritten corpus)
         (map (fun p => (p, reference_links_to (rewritten corpus) p))
              (dict_keys (rewritten corpus))) d prev
       = Ok (t, m)
    /\ m <= tolerance
    /\ dict_keys prev = dict_keys corpus
    /\ dict_keys t = dict_keys corpus.
Proof.
  intros Hv H.
  pose proof (valid_graph_keys _ (rewritten_valid _ Hv)) as Hnd.
  unfold iterate_pagerank, preprocess in H.
  rewrite (preprocess_exact _ corpus Hv) in H. cbn [bind fst snd] in H.
  apply bind_Ok in H. destruct H as [r [Hr H]]. injection H as _ ->.
  assert (Hidx : map (fun p => (p, reference_links_to (rewritten corpus) p))
                     (dict_keys corpus)
                 = map (fun p => (p, reference_links_to (rewritten corpus) p))
                       (dict_keys (rewritten corpus)))
    by (rewrite rewritten_keys; reflexivity).
  rewrite Hidx in Hr.
  apply while_loop_first in Hr.
  destruct Hr as [k [_ [[m [Hs Hm]] _]]].
  destruct k as [|k].
  { simpl in Hs. injection Hs as <- <-. discriminate Hm. }
  rewrite pass_state_snoc in Hs.
  apply bind_Ok in Hs. destruct Hs as [[prev m_prev] [Hprev Hpass]].
  cbn [fst] in Hpass.
  destruct (pass_state_runs (rewritten corpus) d k
              (map (fun k => (k, 1 / num (List.length corpus)))
                   (dict_keys corpus), 1) Hnd) as [st' [E Hk]].
  { cbn [fst]. rewrite rewritten_keys. apply dict_keys_map_key. }
  pose proof (eq_trans (eq_sym Hprev) E) as Heq.
  injection Heq as <-. cbn [fst] in Hk.
  destruct (rank_pass_exact (rewritten corpus) d prev Hnd Hk)
    as [fin [m' [Ef [Hkf _]]]].
  pose proof (eq_trans (eq_sym Hpass) Ef) as Heq.
  injection Heq as <- <-.
  exists k, prev, m_prev, m.
  rewrite !(loop_state_unfold _ _ _ Hv), pass_state_snoc.
  split; [exact Hprev|]. split.
  { exact (eq_trans
             (f_equal (fun r => bind r (fun st' => rank_pass _ _ d (fst st')))
                      Hprev)
             Hpass). }
  split; [exact Hpass|]. split; [now apply Qcgtb_false|]. split.
  - now rewrite Hk, rewritten_keys.
  - now rewrite Hkf, rewritten_keys.
Qed.

(** X8.  When [iterate_pagerank] returns on a well-formed graph, its table
    has an entry for every page of the graph, in the order of the graph,
    and for no other key (unlike the table of [sample_pagerank]). *)
Theorem iterate_pagerank_ranks_every_page (fuel : nat)
        (corpus after : Graph) (damping : Qc) (t : RankTable) :
  valid_graph corpus = true ->
  iterate_pagerank fuel corpus damping = Ok (after, Some t) ->
  dict_keys t = dict_keys corpus.
Proof.
  intros Hv H.
  destruct (iterate_returned_after_pass _ _ _ _ _ Hv H)
    as [k [prev [m_prev [m H']]]].
  apply H'.
Qed.

Lemma iterate_pagerank_ranks_every_page_witness :
  dict_keys (value_of (returned_table
                         (iterate_pagerank 11 sink_pair damping_085)) [])
  = dict_keys sink_pair.
Proof.
  apply (iterate_pagerank_ranks_every_page 11 sink_pair
           (graph_after (iterate_pagerank 11 sink_pair damping_085))
           damping_085).
  - reflexivity.
  - vm_compute. reflexivity.
Defined.

(** X9.  When [iterate_pagerank] returns on a well-formed graph, its table
    comes out of a turn of the loop (the loop makes at least one), and in
    that turn no rank moved by more than 0.0001. *)
Theorem iterate_pagerank_last_pass_small (fuel : nat)
        (corpus after : Graph) (damping : Qc) (t : RankTable) :
  valid_graph corpus = true ->
  iterate_pagerank fuel corpus damping = Ok (after, Some t) ->
  exists k prev m_prev m,
    loop_state corpus damping k = Ok (prev, m_prev)
    /\ loop_state corpus damping (S k) = Ok (t, m)
    /\ Forall (fun p => Qcabs.Qcabs (rank_of t p - rank_of prev p)
                        <= tolerance)
              (dict_keys corpus).
Proof.
  intros Hv H.
  destruct (iterate_returned_after_pass _ _ _ _ _ Hv H)
    as [k [prev [m_prev [m [H1 [H2 [Hp [Hm [Hk _]]]]]]]]].
  exists k, prev, m_prev, m. split; [exact H1|]. split; [exact H2|].
  unfold rank_pass in Hp.
  assert (Hnd : NoDup (dict_keys prev))
    by (rewrite Hk; apply valid_graph_keys, Hv).
  destruct (pass_maxdiff _ _ _ _ _ _ _ Hnd Hp) as [_ Hall].
  apply Forall_forall. intros p Hin.
  apply Qcle_trans with m; [|exact Hm].
  apply (Hall p). now rewrite Hk.
Qed.

Lemma iterate_pagerank_last_pass_small_witness :
  exists k prev m_prev m,
    loop_state sink_pair damping_085 k = Ok (prev, m_prev)
    /\ loop_state sink_pair damping_085 (S k)
       = Ok (value_of (returned_table
                         (iterate_pagerank 11 sink_pair damping_085)) [], m)
    /\ Forall (fun p =>
                 Qcabs.Qcabs
                   (rank_of (value_of
                               (returned_table
                                  (iterate_pagerank 11 sink_pair damping_085))
                               []) p
                    - rank_of prev p)
                 <= tolerance)
              (dict_keys sink_pair).
Proof.
  apply (iterate_pagerank_last_pass_small 11 sink_pair
           (graph_after (iterate_pagerank 11 sink_pair damping_085))
           damping_085).
  - reflexivity.
  - vm_compute. reflexivity.
Defined.

(** ** [iterate_pagerank]: the floor of the ranks *)

Lemma num_nonneg (n : nat) : 0 <= num n.
Proof.
  destruct n as [|n]; [apply Qcle_refl|].
  apply Qclt_le_weak, num_pos. lia.
Qed.

Lemma Qcinv_nonneg (x : Qc) : 0 <= x -> 0 <= / x.
Proof.
  unfold Qcle, Qcinv. cbn [this Q2Qc]. rewrite !Qred_correct.
  apply Qinv_le_0_compat.
Qed.

Lemma Qcmult_nonneg (x y : Qc) : 0 <= x -> 0 <= y -> 0 <= x * y.
Proof.
  intros Hx Hy. replace 0 with (0 * y) by ring.
  now apply Qcmult_le_compat_r.
Qed.

Lemma Qcdiv_nonneg_weak (x y : Qc) : 0 <= x -> 0 <= y -> 0 <= x / y.
Proof.
  intros Hx Hy. unfold Qcdiv. apply Qcmult_nonneg; [assumption|].
  now apply Qcinv_nonneg.
Qed.

(** The running sum of a page never falls below its start when the ranks
    it reads are not negative. *)
Lemma running_sum_floor (g : Graph) (d : Qc) (f : string -> Qc) (p : string)
      (sources : list string) (acc base : Qc) :
  0 <= d -> 0 <= base -> base <= acc ->
  (forall q, In q sources -> q <> p -> 0 <= f q) ->
  base
  <= fold_left
       (fun acc q =>
          acc + d * ((if String.eqb q p then acc else f q)
                     / num (List.length (outlinks g q))))
       sources acc.
Proof.
  intros Hd Hb. revert acc.
  induction sources as [|q sources IH]; intros acc Hacc Hf; simpl.
  - exact Hacc.
  - apply IH.
    + apply Qcle_trans with acc; [exact Hacc|].
      apply Qcplus_le_r, Qcmult_nonneg; [exact Hd|].
      apply Qcdiv_nonneg_weak; [|apply num_nonneg].
      destruct (String.eqb_spec q p) as [->|Hne].
      * apply Qcle_trans with base; assumption.
      * apply Hf; [now left | exact Hne].
    + intros q' Hq'. apply Hf. now right.
Qed.

Lemma floor_nonneg (n : nat) (d : Qc) : d <= 1 -> 0 <= (1 - d) / num n.
Proof.
  intros Hd1. apply Qcdiv_nonneg_weak; [|apply num_nonneg].
  now apply Qcle_minus_iff in Hd1.
Qed.

Lemma computed_rank_floor (g : Graph) (d : Qc) (f : string -> Qc)
      (p : string) (sources : list string) :
  0 <= d <= 1 ->
  (forall q, In q sources -> q <> p -> 0 <= f q) ->
  (1 - d) / num (List.length g) <= computed_rank g d f p sources.
Proof.
  intros [Hd0 Hd1] Hf. unfold computed_rank.
  apply running_sum_floor; try assumption; [|apply Qcle_refl].
  now apply floor_nonneg.
Qed.

Lemma rank_of_nonneg_of_keys (table : dict Qc) (keys : list string)
      (base : Qc) :
  dict_keys table = keys -> 0 <= base ->
  (forall p, In p keys -> base <= rank_of table p) ->
  forall q, 0 <= rank_of table q.
Proof.
  intros Hk Hb H q.
  destruct (in_dec string_dec q keys) as [Hin|Hnin].
  - apply Qcle_trans with base; auto.
  - rewrite <- Hk in Hnin. apply dict_get_None in Hnin.
    unfold rank_of, dict_get_default. rewrite Hnin. apply Qcle_refl.
Qed.

(** After a pass over a table without negative ranks every page has at
    least [(1 - d) / N]. *)
Lemma rank_pass_floor (g : Graph) (d : Qc) (pr fin : dict Qc) (m : Qc) :
  NoDup (dict_keys g) -> dict_keys pr = dict_keys g -> 0 <= d <= 1 ->
  (forall q, 0 <= rank_of pr q) ->
  rank_pass g (map (fun p => (p, reference_links_to g p)) (dict_keys g)) d pr
  = Ok (fin, m) ->
  forall p, In p (dict_keys g) ->
            (1 - d) / num (List.length g) <= rank_of fin p.
Proof.
  intros Hnd Hpr Hd Hnn Hpass.
  destruct (rank_pass_exact g d pr Hnd Hpr) as [fin' [m' [E [Hk Hnew]]]].
  pose proof (eq_trans (eq_sym Hpass) E) as Heq.
  assert (Hfin : fin = fin') by congruence.
  subst fin'. clear Heq E.
  assert (Hb : 0 <= (1 - d) / num (List.length g))
    by (apply floor_nonneg, Hd).
  assert (Hall : forall n pre p post,
             List.length pre = n -> dict_keys g = pre ++ p :: post ->
             (1 - d) / num (List.length g) <= rank_of fin p).
  { induction n as [n IHn] using lt_wf_ind.
    intros pre p post Hlen Hsplit.
    rewrite (rank_of_Some _ _ _ (Hnew pre p post Hsplit)).
    apply computed_rank_floor; [exact Hd|].
    intros q _ _. destruct (set_mem q pre) eqn:Eq; [|apply Hnn].
    apply set_mem_In in Eq. apply in_split in Eq.
    destruct Eq as [pre1 [pre2 Hpre]].
    apply Qcle_trans with ((1 - d) / num (List.length g)); [exact Hb|].
    apply (IHn (List.length pre1)) with (pre := pre1)
                                        (post := pre2 ++ p :: post).
    - rewrite <- Hlen, Hpre, length_app. simpl. lia.
    - reflexivity.
    - rewrite Hsplit, Hpre, <- app_assoc. reflexivity. }
  intros p Hp. apply in_split in Hp. destruct Hp as [pre [post Hsplit]].
  exact (Hall (List.length pre) pre p post eq_refl Hsplit).
Qed.

(** The tables of the loop never hold a negative rank. *)
Lemma pass_state_nonneg (g : Graph) (d : Qc) (k : nat)
      (st st' : dict Qc * Qc) :
  NoDup (dict_keys g) -> dict_keys (fst st) = dict_keys g -> 0 <= d <= 1 ->
  (forall q, 0 <= rank_of (fst st) q) ->
  pass_state g (map (fun p => (p, reference_links_to g p)) (dict_keys g))
             d k st = Ok st' ->
  forall q, 0 <= rank_of (fst st') q.
Proof.
  intros Hnd. revert st. induction k as [|k IH]; intros st Hst Hd Hnn H.
  - simpl in H. assert (Hst' : st = st') by congruence. now subst st'.
  - cbn [pass_state] in H. apply bind_Ok in H.
    destruct H as [[fin m] [Hpass H]].
    destruct (rank_pass_exact g d (fst st) Hnd Hst)
      as [fin' [m' [E [Hk _]]]].
    pose proof (eq_trans (eq_sym Hpass) E) as Heq.
    assert (Hfin : fin' = fin) by congruence. subst fin'.
    apply (IH (fin, m)); try assumption.
    cbn [fst].
    apply (rank_of_nonneg_of_keys fin (dict_keys g)
             ((1 - d) / num (List.length g)) Hk).
    + apply floor_nonneg, Hd.
    + exact (rank_pass_floor g d (fst st) fin m Hnd Hst Hd Hnn Hpass).
Qed.

Lemma initial_table_nonneg (corpus : Graph) (q : string) :
  0 <= rank_of (map (fun k => (k, 1 / num (List.length corpus)))
                    (dict_keys corpus)) q.
Proof.
  unfold rank_of, dict_get_default.
  destruct (in_dec string_dec q (dict_keys corpus)) as [Hin|Hnin].
  - rewrite (dict_get_map_key
               (fun _ => 1 / num (List.length corpus)) _ _ Hin).
    apply Qcdiv_nonneg_weak; [|apply num_nonneg].
    apply (num_nonneg 1).
  - assert (Hnone : dict_get q
                      (map (fun k => (k, 1 / num (List.length corpus)))
                           (dict_keys corpus)) = None).
    { apply dict_get_None.
      rewrite (dict_keys_map_key
                 (fun _ => 1 / num (List.length corpus))). exact Hnin. }
    rewrite Hnone. apply Qcle_refl.
Qed.

(** X10.  For a damping factor in [0, 1], every rank of the table that
    [iterate_pagerank] returns on a well-formed graph is at least
    [(1 - damping) / N], with [N] the number of pages. *)
Theorem iterate_pagerank_floor (fuel : nat) (corpus after : Graph)
        (damping : Qc) (t : RankTable) :
  valid_graph corpus = true -> 0 <= damping <= 1 ->
  iterate_pagerank fuel corpus damping = Ok (after, Some t) ->
  Forall (fun kv => (1 - damping) / num (List.length corpus) <= snd kv) t.
Proof.
  intros Hv Hd H.
  pose proof (valid_graph_keys _ (rewritten_valid _ Hv)) as Hnd.
  destruct (iterate_returned_after_pass _ _ _ _ _ Hv H)
    as [k [prev [m_prev [m [H1 [_ [Hp [_ [Hk Hkt]]]]]]]]].
  rewrite (loop_state_unfold _ _ _ Hv) in H1.
  assert (Hnn : forall q, 0 <= rank_of prev q).
  { apply (pass_state_nonneg (rewritten corpus) damping k
             (map (fun k => (k, 1 / num (List.length corpus)))
                  (dict_keys corpus), 1) (prev, m_prev) Hnd);
      [| exact Hd | | exact H1].
    - cbn [fst]. rewrite rewritten_keys.
      apply (dict_keys_map_key (fun _ => 1 / num (List.length corpus))).
    - cbn [fst]. apply initial_table_nonneg. }
  assert (Hfloor := rank_pass_floor (rewritten corpus) damping prev t m Hnd
                      (eq_trans Hk (eq_sym (rewritten_keys corpus)))
                      Hd Hnn Hp).
  rewrite rewritten_length in Hfloor.
  apply Forall_forall. intros [key v] Hin. cbn [snd].
  assert (Hget : dict_get key t = Some v).
  { apply In_dict_get; [|exact Hin].
    rewrite Hkt. apply valid_graph_keys, Hv. }
  rewrite <- (rank_of_Some _ _ _ Hget). apply Hfloor.
  rewrite rewritten_keys, <- Hkt. eapply dict_get_In_keys, Hget.
Qed.

Lemma iterate_pagerank_floor_witness :
  Forall (fun kv => (1 - damping_085) / num (List.length sink_pair) <= snd kv)
         (value_of (returned_table
                      (iterate_pagerank 11 sink_pair damping_085)) []).
Proof.
  apply (iterate_pagerank_floor 11 sink_pair
           (graph_after (iterate_pagerank 11 sink_pair damping_085))
           damping_085).
  - reflexivity.
  - split; vm_compute; discriminate.
  - vm_compute. reflexivity.
Defined.

(** ** [iterate_pagerank]: a second call *)

(** The sink rewrite changes nothing in a graph it has rewritten. *)
Lemma rewritten_idem (g : Graph) : rewritten (rewritten g) = rewritten g.
Proof.
  unfold rewritten at 1. rewrite rewritten_keys. unfold rewritten.
  rewrite map_map. apply map_ext_in. intros [k v] Hin. cbn [fst snd].
  f_equal. destruct v as [|l v]; cbn [is_empty_set]; [|reflexivity].
  destruct g as [|kv g]; [destruct Hin | reflexivity].
Qed.

(** The function on a well-formed graph: the loop runs on the rewritten
    graph, from the uniform table. *)
Lemma iterate_pagerank_unfold (fuel : nat) (corpus : Graph) (d : Qc) :
  valid_graph corpus = true ->
  iterate_pagerank fuel corpus d
  = (ranks <- while_loop fuel (rewritten corpus)
                (map (fun p => (p, reference_links_to (rewritten corpus) p))
                     (dict_keys corpus))
                d
                (map (fun k => (k, 1 / num (List.length corpus)))
                     (dict_keys corpus))
                1 ;;
     Ok (rewritten corpus, ranks)).
Proof.
  intros Hv. unfold iterate_pagerank, preprocess.
  rewrite (preprocess_exact _ corpus Hv). reflexivity.
Qed.

(** X11.  A second call of [iterate_pagerank] on the graph that a first call
    on a well-formed graph has left behaves as the first: it leaves the
    graph as it is and gives the same answer. *)
Theorem iterate_pagerank_second_call (fuel : nat) (corpus after : Graph)
        (damping : Qc) (r : option RankTable) :
  valid_graph corpus = true ->
  iterate_pagerank fuel corpus damping = Ok (after, r) ->
  iterate_pagerank fuel after damping = Ok (after, r).
Proof.
  intros Hv H.
  destruct (iterate_pagerank_runs fuel corpus damping Hv) as [r' E].
  assert (Hafter : after = rewritten corpus) by congruence.
  subst after.
  rewrite (iterate_pagerank_unfold fuel _ damping (rewritten_valid _ Hv)).
  rewrite rewritten_idem, rewritten_length, rewritten_keys.
  rewrite <- (iterate_pagerank_unfold fuel corpus damping Hv). exact H.
Qed.

Lemma iterate_pagerank_second_call_witness :
  iterate_pagerank 11 sink_pair_rewritten damping_085
  = Ok (sink_pair_rewritten,
        snd (value_of (iterate_pagerank 11 sink_pair damping_085) ([], None))).
Proof.
  apply (iterate_pagerank_second_call 11 sink_pair).
  - reflexivity.
  - vm_compute. reflexivity.
Defined.

(** ** [main] *)


(** X12.  Started with one argument on a directory without any [.html]
    file, [main] ends with the uncaught [IndexError] of [random.choice]:
    the corpus is empty and the sampler is called first. *)
Theorem main_empty_corpus (findall : string -> list string)
        (listdir : string -> directory) (argv : list string)
        (start : nat) (draws : nat -> Qc) (fuel : nat) :
  List.length argv = 2%nat ->
  (forall name, In name (map fst (listdir (nth 1 argv ""))) ->
                endswith name ".html" = false) ->
  main findall listdir argv start draws fuel = Uncaught IndexError.
Proof.
  intros Hlen Hno. unfold main. rewrite Hlen. cbn [Nat.eqb negb].
  assert (Hr : readable (listdir (nth 1 argv ""))).
  { intros name e Hin. apply Hno.
    apply (in_map fst) in Hin. exact Hin. }
  destruct (crawl_returns findall (listdir (nth 1 argv "")) Hr)
    as [corpus [-> [_ Hkeys]]].
  assert (Hempty : corpus = []).
  { destruct corpus as [|[k v] c]; [reflexivity|]. exfalso.
    destruct (proj1 (Hkeys k) (or_introl eq_refl)) as [He Hin].
    rewrite (Hno k Hin) in He. discriminate He. }
  subst corpus. reflexivity.
Qed.

Lemma main_empty_corpus_witness :
  main whole_text
       (fun _ => [("notes.txt", Text "a.html"); ("old", Unreadable OSError)])
       ["pagerank.py"; "corpus"] 0 half_draws 5
  = Uncaught IndexError.
Proof.
  apply main_empty_corpus.
  - reflexivity.
  - intros name [<-|[<-|[]]]; reflexivity.
Defined.



(** ** [iterate_pagerank]: when the loop ends *)

(** [maxdifference] after a page is its old value or the change of the
    page. *)
Lemma update_rank_maxdiff_cases (g : Graph) (lt : dict pyset) (d : Qc)
      (lastrank : dict Qc) (st st' : dict Qc * Qc) (p : string) :
  update_rank g lt d lastrank st p = Ok st' ->
  snd st' = snd st
  \/ snd st' = Qcabs.Qcabs (rank_of (fst st') p - rank_of lastrank p).
Proof.
  unfold update_rank. intros H.
  apply bind_Ok in H. destruct H as [srcs [_ H]].
  apply bind_Ok in H. destruct H as [pr2 [Hloop H]].
  apply bind_Ok in H. destruct H as [new [Hnew H]].
  apply bind_Ok in H. destruct H as [old [Hold H]].
  rewrite Hnew, Hold in H. cbn [bind] in H.
  apply subscript_inv, rank_of_Some in Hnew.
  apply subscript_inv, rank_of_Some in Hold.
  destruct (Qcgtb (Qcabs.Qcabs (new - old)) (snd st)) eqn:E;
    injection H as <-; cbn [fst snd]; rewrite Hnew, Hold.
  - now right.
  - now left.
Qed.

(** [maxdifference] is not above a bound of the changes of the pass. *)
Lemma pass_maxdiff_upper (g : Graph) (lt : dict pyset) (d : Qc)
      (lastrank : dict Qc) (post : list string) (st st' : dict Qc * Qc)
      (b : Qc) :
  NoDup post ->
  for_each post (update_rank g lt d lastrank) st = Ok st' ->
  snd st <= b ->
  (forall p, In p post ->
             Qcabs.Qcabs (rank_of (fst st') p - rank_of lastrank p) <= b) ->
  snd st' <= b.
Proof.
  revert st. induction post as [|p post IH]; intros st Hnd H Hb Hall.
  - simpl in H. assert (Hst : st = st') by congruence. now subst st'.
  - cbn [for_each] in H. apply bind_Ok in H. destruct H as [st1 [H1 H2]].
    inversion Hnd as [|? ? Hp Hnd']; subst.
    apply (IH st1 Hnd' H2); [|intros q Hq; apply Hall; now right].
    destruct (update_rank_maxdiff_cases _ _ _ _ _ _ _ H1) as [E|E];
      rewrite E; [exact Hb|].
    assert (Hsame : rank_of (fst st1) p = rank_of (fst st') p).
    { unfold rank_of, dict_get_default.
      now rewrite (pass_frame _ _ _ _ _ _ _ H2 p Hp). }
    rewrite Hsame. apply Hall. now left.
Qed.

(** The loop ends within [k] passes when the [k]-th pass ends below the
    tolerance. *)
Lemma while_loop_ends (g : Graph) (lt : dict pyset) (d : Qc) (k : nat)
      (pr : dict Qc) (m0 : Qc) (t : dict Qc) (m : Qc) :
  pass_state g lt d k (pr, m0) = Ok (t, m) ->
  Qcgtb m tolerance = false ->
  exists t', while_loop k g lt d pr m0 = Ok (Some t').
Proof.
  revert pr m0. induction k as [|k IH]; intros pr m0 H Hm.
  - simpl in H. assert (Hm0 : m0 = m) by congruence. subst m0.
    simpl. rewrite Hm. eauto.
  - cbn [while_loop]. destruct (Qcgtb m0 tolerance); [|eauto].
    cbn [pass_state fst] in H. apply bind_Ok in H.
    destruct H as [[pr1 m1] [H1 H2]]. rewrite H1. cbn [bind fst snd].
    exact (IH pr1 m1 H2 Hm).
Qed.

(** X14.  On a well-formed graph the loop of [iterate_pagerank] ends at the
    latest with the first pass that changes no rank by more than 0.0001:
    when pass [k + 1] is such a pass, the function returns within [k + 1]
    passes. *)
Theorem iterate_pagerank_stops (corpus : Graph) (damping : Qc) (k : nat)
        (prev t : dict Qc) (m_prev m : Qc) :
  valid_graph corpus = true ->
  loop_state corpus damping k = Ok (prev, m_prev) ->
  loop_state corpus damping (S k) = Ok (t, m) ->
  Forall (fun p => Qcabs.Qcabs (rank_of t p - rank_of prev p) <= tolerance)
         (dict_keys corpus) ->
  exists t',
    iterate_pagerank (S k) corpus damping = Ok (rewritten corpus, Some t').
Proof.
  intros Hv Hk HSk Hall.
  pose proof (valid_graph_keys _ (rewritten_valid _ Hv)) as Hnd.
  rewrite (loop_state_unfold _ _ k Hv) in Hk.
  rewrite (loop_state_unfold _ _ (S k) Hv) in HSk.
  assert (Hprev : dict_keys prev = dict_keys corpus).
  { destruct (pass_state_runs (rewritten corpus) damping k
                (map (fun k => (k, 1 / num (List.length corpus)))
                     (dict_keys corpus), 1) Hnd) as [st' [E Hkeys]].
    - cbn [fst]. rewrite rewritten_keys.
      apply (dict_keys_map_key (fun _ => 1 / num (List.length corpus))).
    - pose proof (eq_trans (eq_sym Hk) E) as Heq.
      assert (Hst : st' = (prev, m_prev)) by congruence.
      subst st'. cbn [fst] in Hkeys. now rewrite <- rewritten_keys. }
  assert (Hpass : rank_pass (rewritten corpus)
                    (map (fun p => (p, reference_links_to (rewritten corpus) p))
                         (dict_keys (rewritten corpus))) damping prev
                  = Ok (t, m)).
  { pose proof HSk as H. rewrite pass_state_snoc in H.
    apply bind_Ok in H. destruct H as [st' [E H]].
    pose proof (eq_trans (eq_sym Hk) E) as Heq.
    assert (Hst : st' = (prev, m_prev)) by congruence.
    subst st'. exact H. }
  assert (Hm : Qcgtb m tolerance = false).
  { apply Qcgtb_false. unfold rank_pass in Hpass.
    apply (pass_maxdiff_upper _ _ _ _ _ _ _ tolerance
             (eq_ind_r (fun l => NoDup l)
                       (valid_graph_keys _ Hv) Hprev) Hpass).
    - cbn [snd]. vm_compute. discriminate.
    - intros p Hp. cbn [fst]. rewrite Hprev in Hp.
      exact (proj1 (Forall_forall _ _) Hall p Hp). }
  destruct (while_loop_ends _ _ _ _ _ _ _ _ HSk Hm) as [t' E].
  exists t'. rewrite (iterate_pagerank_unfold _ _ _ Hv).
  rewrite rewritten_keys in E. rewrite E. reflexivity.
Qed.

Lemma iterate_pagerank_stops_witness :
  exists t',
    iterate_pagerank 11 sink_pair damping_085
    = Ok (rewritten sink_pair, Some t').
Proof.
  apply (iterate_pagerank_stops sink_pair damping_085 10
           (fst (value_of (loop_state sink_pair damping_085 10) ([], 0)))
           (fst (value_of (loop_state sink_pair damping_085 11) ([], 0)))
           (snd (value_of (loop_state sink_pair damping_085 10) ([], 0)))
           (snd (value_of (loop_state sink_pair damping_085 11) ([], 0)))).
  - reflexivity.
  - vm_compute. reflexivity.
  - vm_compute. reflexivity.
  - repeat constructor; vm_compute; discriminate.
Defined.

(** ** [iterate_pagerank]: damping factor 0 *)

Lemma computed_rank_damping_0 (g : Graph) (f : string -> Qc) (p : string)
      (sources : list string) :
  computed_rank g 0 f p sources = 1 / num (List.length g).
Proof.
  unfold computed_rank. replace (1 - 0) with 1 by ring.
  generalize (1 / num (List.length g)) as acc.
  induction sources as [|q sources IH]; intros acc; simpl; [reflexivity|].
  rewrite IH. ring.
Qed.

(** A table whose entries all hold [c] is the table built from its keys. *)
Lemma constant_table (t : dict Qc) (c : Qc) :
  NoDup (dict_keys t) ->
  (forall p, In p (dict_keys t) -> dict_get p t = Some c) ->
  t = map (fun k => (k, c)) (dict_keys t).
Proof.
  induction t as [|[k v] t IH]; intros Hnd Hall; simpl; [reflexivity|].
  simpl in Hnd. inversion Hnd as [|? ? Hk Hnd']; subst.
  f_equal.
  - pose proof (Hall k (or_introl eq_refl)) as H. simpl in H.
    rewrite String.eqb_refl in H. congruence.
  - apply IH; [exact Hnd'|]. intros p Hp.
    pose proof (Hall p (or_intror Hp)) as H. simpl in H.
    destruct (String.eqb_spec p k) as [->|_]; [contradiction | exact H].
Qed.

(** X15.  With damping factor 0, [iterate_pagerank] returns after its first
    pass, on every well-formed graph, and gives every page the rank
    [1 / N]. *)
Theorem iterate_pagerank_damping_0 (fuel : nat) (corpus : Graph) :
  valid_graph corpus = true ->
  iterate_pagerank (S fuel) corpus 0
  = Ok (rewritten corpus,
        Some (map (fun p => (p, 1 / num (List.length corpus)))
                  (dict_keys corpus))).
Proof.
  intros Hv.
  pose proof (valid_graph_keys _ (rewritten_valid _ Hv)) as Hnd.
  set (init := map (fun k => (k, 1 / num (List.length corpus)))
                   (dict_keys corpus)).
  assert (Hinit : dict_keys init = dict_keys (rewritten corpus)).
  { rewrite rewritten_keys.
    apply (dict_keys_map_key (fun _ => 1 / num (List.length corpus))). }
  destruct (rank_pass_exact (rewritten corpus) 0 init Hnd Hinit)
    as [fin [m [E [Hk Hnew]]]].
  assert (Hfin : fin = init).
  { rewrite (constant_table fin (1 / num (List.length corpus))).
    - unfold init. now rewrite Hk, rewritten_keys.
    - now rewrite Hk.
    - intros p Hp. rewrite Hk in Hp. apply in_split in Hp.
      destruct Hp as [pre [post Hsplit]].
      rewrite (Hnew pre p post Hsplit), computed_rank_damping_0.
      now rewrite rewritten_length. }
  subst fin.
  assert (Hm : Qcgtb m tolerance = false).
  { apply Qcgtb_false. apply Qcle_trans with 0; [|vm_compute; discriminate].
    pose proof E as Hpass. unfold rank_pass in Hpass.
    apply (pass_maxdiff_upper _ _ _ _ _ _ _ 0
             (eq_ind_r (fun l => NoDup l) Hnd Hinit) Hpass).
    - apply Qcle_refl.
    - intros p _. cbn [fst].
      replace (rank_of init p - rank_of init p) with 0 by ring.
      vm_compute. discriminate. }
  rewrite (iterate_pagerank_unfold _ _ _ Hv). fold init.
  rewrite rewritten_keys in E.
  cbn [while_loop].
  assert (Hstart : Qcgtb 1 tolerance = true) by (vm_compute; reflexivity).
  rewrite Hstart, E. cbn [bind fst snd].
  destruct fuel; cbn [while_loop]; rewrite Hm; reflexivity.
Qed.

Lemma iterate_pagerank_damping_0_witness :
  iterate_pagerank 1 sink_pair 0
  = Ok (rewritten sink_pair,
        Some (map (fun p => (p, 1 / num (List.length sink_pair)))
                  (dict_keys sink_pair))).
Proof.
  apply (iterate_pagerank_damping_0 0 sink_pair). reflexivity.
Defined.
